(** * medi-bridge-backend: forum and doctor controllers

    A shallow embedding of [controllers/forumController.js] and of the two
    guarded handlers of [controllers/doctorController.js], over a model of
    the document store the handlers talk to.

    Conventions of the embedding.
    - An ObjectId is the 96-bit number it denotes; the driver hands out a
      fresh one at every [Model.create].
    - A collection is a finite map from ObjectId to document.
    - A handler is a computation in the monad [M]: it reads and updates the
      store and journals every write it issues, in order.
    - The store is available: the [catch] branches of the handlers (status
      500) are reached only when a store call throws, which the model's store
      never does. *)

From stdpp Require Import gmap strings list sorting.
From Stdlib Require Import Ascii NArith.

Set Warnings "-register-all".

Local Open Scope string_scope.
Local Open Scope N_scope.

(** ** Documents *)

Abbreviation ObjectId := N (only parsing).
Abbreviation Timestamp := N (only parsing).

(** Modelled from the spec: the schema of [models/postModel.js], which is
    not part of the sources: content, a polymorphic author reference tagged
    by [authorType], the [comments] linkage array and the creation time. *)
Record Post := mkPost {
  post_content : string;
  post_author : ObjectId;
  post_authorType : string;
  post_comments : list ObjectId;
  post_createdAt : Timestamp
}.

(** Modelled from the spec: the schema of [models/commentModel.js], which is
    not part of the sources: as a post, plus the owning post, the parent
    comment ([None] is [null], a top-level comment) and the [replies]
    linkage array. *)
Record Comment := mkComment {
  comment_content : string;
  comment_author : ObjectId;
  comment_authorType : string;
  comment_post : ObjectId;
  comment_parentComment : option ObjectId;
  comment_replies : list ObjectId;
  comment_createdAt : Timestamp
}.

Record User := mkUser {
  user_name : string
}.

(** One entry of a doctor's [availableSlots]: the handler reads and writes
    the fields [date] and [slots] only. *)
Record Availability := mkAvailability {
  date : string;
  slots : list string
}.

Record Doctor := mkDoctor {
  doctor_name : string;
  doctor_specialization : string;
  availableSlots : list Availability
}.

(** An appointment: the handlers read [doctorId] and [status] and write
    [status]; the other fields stand for the rest of the document. *)
Record Appointment := mkAppointment {
  appt_doctorId : ObjectId;
  appt_userId : ObjectId;
  appt_date : string;
  appt_time : string;
  appt_status : string
}.

#[global] Instance Post_eq_dec : EqDecision Post.
Proof. solve_decision. Defined.
#[global] Instance Comment_eq_dec : EqDecision Comment.
Proof. solve_decision. Defined.
#[global] Instance Availability_eq_dec : EqDecision Availability.
Proof. solve_decision. Defined.
#[global] Instance Appointment_eq_dec : EqDecision Appointment.
Proof. solve_decision. Defined.

(** ** The store *)

Record Store := mkStore {
  Posts : gmap N Post;
  Comments : gmap N Comment;
  Users : gmap N User;
  Doctors : gmap N Doctor;
  Appointments : gmap N Appointment;
  next_oid : ObjectId
}.

Definition empty_store : Store :=
  mkStore ∅ ∅ ∅ ∅ ∅ 0.

(** The writes a handler can issue, as the journal records them. *)
Inductive Write :=
| InsertPost (i : ObjectId)
| InsertComment (i : ObjectId)
| PushComments (post new : ObjectId)
| PushReplies (comment new : ObjectId)
| SaveDoctor (i : ObjectId)
| SaveAppointment (i : ObjectId).

#[global] Instance Write_eq_dec : EqDecision Write.
Proof. solve_decision. Defined.

(** A linkage update is a [$push] on one of the two linkage arrays. *)
Definition is_linkage (w : Write) : bool :=
  match w with
  | PushComments _ _ | PushReplies _ _ => true
  | _ => false
  end.

(** ** The handler monad: state passing with a write journal *)

Record Outcome (A : Type) := mkOutcome {
  value : A;
  store_after : Store;
  journal : list Write
}.
Arguments mkOutcome {A} _ _ _.
Arguments value {A} _.
Arguments store_after {A} _.
Arguments journal {A} _.

Definition M (A : Type) : Type := Store → Outcome A.

#[global] Instance M_ret : MRet M := λ A a s, mkOutcome a s [].

#[global] Instance M_bind : MBind M := λ A B k m s,
  let r := m s in
  let r' := k (value r) (store_after r) in
  mkOutcome (value r') (store_after r') (journal r ++ journal r').

Definition read {A} (f : Store → A) : M A := λ s, mkOutcome (f s) s [].

Definition write (w : Write) (f : Store → Store) : M unit :=
  λ s, mkOutcome tt (f s) [w].

(** ** Store primitives *)

Definition set_Posts (f : gmap N Post → gmap N Post) (s : Store) : Store :=
  mkStore (f (Posts s)) (Comments s) (Users s) (Doctors s) (Appointments s)
    (next_oid s).
Definition set_Comments (f : gmap N Comment → gmap N Comment) (s : Store) : Store :=
  mkStore (Posts s) (f (Comments s)) (Users s) (Doctors s) (Appointments s)
    (next_oid s).
Definition set_Doctors (f : gmap N Doctor → gmap N Doctor) (s : Store) : Store :=
  mkStore (Posts s) (Comments s) (Users s) (f (Doctors s)) (Appointments s)
    (next_oid s).
Definition set_Appointments (f : gmap N Appointment → gmap N Appointment)
    (s : Store) : Store :=
  mkStore (Posts s) (Comments s) (Users s) (Doctors s) (f (Appointments s))
    (next_oid s).
Definition bump_oid (s : Store) : Store :=
  mkStore (Posts s) (Comments s) (Users s) (Doctors s) (Appointments s)
    (next_oid s + 1).

(** [Post.create(doc)]: a fresh id, one inserted document. *)
Definition Post_create (doc : Post) : M ObjectId :=
  i ← read next_oid;
  write (InsertPost i) (λ s, bump_oid (set_Posts (insert i doc) s));;
  mret i.

(** [Comment.create(doc)]. *)
Definition Comment_create (doc : Comment) : M ObjectId :=
  i ← read next_oid;
  write (InsertComment i) (λ s, bump_oid (set_Comments (insert i doc) s));;
  mret i.

Definition push_comment (new : ObjectId) (p : Post) : Post :=
  mkPost (post_content p) (post_author p) (post_authorType p)
    (post_comments p ++ [new]) (post_createdAt p).

Definition push_reply (new : ObjectId) (c : Comment) : Comment :=
  mkComment (comment_content c) (comment_author c) (comment_authorType c)
    (comment_post c) (comment_parentComment c) (comment_replies c ++ [new])
    (comment_createdAt c).

(** [Post.findByIdAndUpdate(id, { $push: { comments: new } })]: the store
    updates the document with that id, and does nothing when there is none. *)
Definition Post_findByIdAndUpdate_push_comments (id new : ObjectId) : M unit :=
  write (PushComments id new) (set_Posts (alter (push_comment new) id)).

(** [Comment.findByIdAndUpdate(id, { $push: { replies: new } })]. *)
Definition Comment_findByIdAndUpdate_push_replies (id new : ObjectId) : M unit :=
  write (PushReplies id new) (set_Comments (alter (push_reply new) id)).

(** ** Query results: documents with populated reference fields *)

(** The projection [select: "name specialization"] of an author document:
    a user has no [specialization] field. *)
Record AuthorProjection := mkAuthor {
  author_id : ObjectId;
  name : string;
  specialization : option string
}.

(** An [author] field is a bare id until it is populated; population yields
    the projected document, or [null] when the reference dangles. *)
Inductive AuthorField :=
| AuthorRef (i : ObjectId)
| AuthorDoc (d : option AuthorProjection).

(** A comment as a query returns it: the stored document, with its [author]
    field and its [replies] array either bare ids or populated. *)
Inductive CommentView :=
| mkCommentView (cv_id : ObjectId) (cv_doc : Comment) (cv_author : AuthorField)
    (cv_replies : RefArray)
with RefArray :=
| Refs (ids : list ObjectId)
| Docs (docs : list CommentView).

Definition cv_id (v : CommentView) : ObjectId :=
  match v with mkCommentView i _ _ _ => i end.
Definition cv_doc (v : CommentView) : Comment :=
  match v with mkCommentView _ d _ _ => d end.
Definition cv_author (v : CommentView) : AuthorField :=
  match v with mkCommentView _ _ a _ => a end.
Definition cv_replies (v : CommentView) : RefArray :=
  match v with mkCommentView _ _ _ r => r end.

Record PostView := mkPostView {
  pv_id : ObjectId;
  pv_doc : Post;
  pv_author : AuthorField;
  pv_comments : RefArray
}.

(** A document as [find] returns it, before any [populate]. *)
Definition raw_comment (ic : ObjectId * Comment) : CommentView :=
  mkCommentView ic.1 ic.2 (AuthorRef (comment_author ic.2))
    (Refs (comment_replies ic.2)).

Definition raw_post (ip : ObjectId * Post) : PostView :=
  mkPostView ip.1 ip.2 (AuthorRef (post_author ip.2))
    (Refs (post_comments ip.2)).

(** ** Sorting and population *)

(** [{ createdAt: 1 }] and [{ createdAt: -1 }]. *)
Inductive SortOrder := Ascending | Descending.

Definition in_order (o : SortOrder) (a b : Timestamp) : Prop :=
  match o with
  | Ascending => a ≤ b
  | Descending => b ≤ a
  end.

#[global] Instance in_order_dec o a b : Decision (in_order o a b).
Proof. destruct o; simpl; apply _. Defined.

Definition by_createdAt {A} (key : A → Timestamp) (o : SortOrder) (x y : A) : Prop :=
  in_order o (key x) (key y).

#[global] Instance by_createdAt_dec {A} (key : A → Timestamp) o x y :
  Decision (by_createdAt key o x y).
Proof. unfold by_createdAt. apply _. Defined.

Definition sort_by {A} (key : A → Timestamp) (o : option SortOrder)
    (l : list A) : list A :=
  match o with
  | None => l
  | Some o => merge_sort (by_createdAt key o) l
  end.

(** The paths the handlers populate. *)
Inductive Path := path_author | path_comments | path_replies.

(** A populate option object: [{ path, populate: [...], options: { sort } }].
    Every [author] population of the source selects ["name specialization"],
    which [AuthorProjection] fixes. *)
Inductive PopulateOptions :=
| Populate (path : Path) (populate : list PopulateOptions)
    (sort : option SortOrder).

(** Resolution of a polymorphic reference: [refPath: "authorType"] names the
    collection. The data model has the two tags only; for any other tag the
    definition resolves to nothing, where the library finds no model of that
    name and throws: stores holding such a tag are outside the model. *)
Definition resolve_author (s : Store) (authorType : string) (i : ObjectId)
    : option AuthorProjection :=
  if decide (authorType = "User") then
    (λ u, mkAuthor i (user_name u) None) <$> Users s !! i
  else if decide (authorType = "Doctor") then
    (λ d, mkAuthor i (doctor_name d) (Some (doctor_specialization d)))
      <$> Doctors s !! i
  else None.

(** The stored comments an id array refers to, in array order, the dangling
    ids dropped. *)
Definition stored_comments (s : Store) (ids : list ObjectId)
    : list (ObjectId * Comment) :=
  omap (λ i, (λ c, (i, c)) <$> Comments s !! i) ids.

(** What populating an id array queries: the stored comments, in the order
    of the sort option when there is one. The definition is that of the
    library for an array without repeated ids; an id named twice is listed
    twice here, and once by the library under a sort option. *)
Definition fetch_comments (s : Store) (ids : list ObjectId)
    (o : option SortOrder) : list CommentView :=
  raw_comment <$>
    sort_by (λ ic, comment_createdAt ic.2) o (stored_comments s ids).

Definition populate_author (s : Store) (authorType : string) (a : AuthorField)
    : AuthorField :=
  match a with
  | AuthorRef i => AuthorDoc (resolve_author s authorType i)
  | AuthorDoc d => AuthorDoc d
  end.

(** One populate option applied to a comment; the nested options are applied
    to the documents it brings in. A comment has no [comments] path. *)
Fixpoint populate_comment (s : Store) (o : PopulateOptions) (v : CommentView)
    : CommentView :=
  match o with
  | Populate p nested srt =>
    match p with
    | path_author =>
      mkCommentView (cv_id v) (cv_doc v)
        (populate_author s (comment_authorType (cv_doc v)) (cv_author v))
        (cv_replies v)
    | path_replies =>
      match cv_replies v with
      | Refs ids =>
        mkCommentView (cv_id v) (cv_doc v) (cv_author v)
          (Docs ((λ d, fold_left (λ d' o', populate_comment s o' d') nested d)
                   <$> fetch_comments s ids srt))
      | Docs _ => v
      end
    | path_comments => v
    end
  end.

Definition populate_comments (s : Store) (os : list PopulateOptions)
    (v : CommentView) : CommentView :=
  fold_left (λ d o, populate_comment s o d) os v.

(** One populate option applied to a post. A post has no [replies] path. *)
Definition populate_post (s : Store) (o : PopulateOptions) (v : PostView)
    : PostView :=
  match o with
  | Populate p nested srt =>
    match p with
    | path_author =>
      mkPostView (pv_id v) (pv_doc v)
        (populate_author s (post_authorType (pv_doc v)) (pv_author v))
        (pv_comments v)
    | path_comments =>
      match pv_comments v with
      | Refs ids =>
        mkPostView (pv_id v) (pv_doc v) (pv_author v)
          (Docs (populate_comments s nested <$> fetch_comments s ids srt))
      | Docs _ => v
      end
    | path_replies => v
    end
  end.

(** [Post.find().sort(o)]: documents of equal [createdAt] come in the order
    the scan of the collection yields them. *)
Definition Post_find_sort (o : SortOrder) : M (list PostView) :=
  read (λ s, raw_post <$>
    sort_by (λ ip, post_createdAt ip.2) (Some o) (map_to_list (Posts s))).

(** [Post.findById(id)] and [Comment.findById(id)]: [None] is [null]. *)
Definition Post_findById (id : ObjectId) : M (option PostView) :=
  read (λ s, (λ p, raw_post (id, p)) <$> Posts s !! id).

Definition Comment_findById (id : ObjectId) : M (option CommentView) :=
  read (λ s, (λ c, raw_comment (id, c)) <$> Comments s !! id).

(** [query.populate(o)] on a list of posts, on one post and on one comment. *)
Definition populate_posts (o : PopulateOptions) (l : list PostView)
    : M (list PostView) :=
  read (λ s, populate_post s o <$> l).

Definition populate_post_opt (o : PopulateOptions) (v : option PostView)
    : M (option PostView) :=
  read (λ s, populate_post s o <$> v).

Definition populate_comment_opt (o : PopulateOptions) (v : option CommentView)
    : M (option CommentView) :=
  read (λ s, populate_comment s o <$> v).

(** [Doctor.findById(id)], [doctor.save()] *)
Definition Doctor_findById (id : ObjectId) : M (option Doctor) :=
  read (λ s, Doctors s !! id).

Definition Doctor_save (id : ObjectId) (d : Doctor) : M unit :=
  write (SaveDoctor id) (set_Doctors (insert id d)).

(** [Appointment.findOne({ _id, doctorId })], [appointment.save()] *)
Definition Appointment_findOne (id doctorId : ObjectId) : M (option Appointment) :=
  read (λ s, a ← Appointments s !! id;
             if decide (appt_doctorId a = doctorId) then Some a else None).

Definition Appointment_save (id : ObjectId) (a : Appointment) : M unit :=
  write (SaveAppointment id) (set_Appointments (insert id a)).

(** ** Requests and responses *)

(** What the forum handlers read of a request: [req.params.postId],
    [req.body.content], [req.body.parentCommentId], [req.user.id] and
    [req.user.role]. [None] is a missing (or [null]) body field. The
    handler only tests [parentCommentId] for truthiness and stores
    [parentCommentId || null], so every falsy value of it is [None] here. *)
Record ForumRequest := mkForumRequest {
  params_postId : ObjectId;
  body_content : option string;
  body_parentCommentId : option ObjectId;
  user_id : ObjectId;
  user_role : string
}.

(** What the doctor handlers read: [req.doctorId] (set by the token check),
    [req.user.id], [req.params.appointmentId], [req.body.date] and
    [req.body.slots]. *)
Record DoctorRequest := mkDoctorRequest {
  req_doctorId : ObjectId;
  req_user_id : ObjectId;
  params_appointmentId : ObjectId;
  body_date : string;
  body_slots : list string
}.

Inductive Body :=
| json_message (message : string)
| json_posts (posts : list PostView)
| json_post (post : option PostView)
| json_comment (comment : option CommentView)
| json_doctor (message : string) (doctor : Doctor)
| json_appointment (message : string) (appointment : Appointment).

Record Response := mkResponse {
  status : N;
  body : Body
}.

(** JavaScript's [!content] on a text field: missing and empty are falsy. *)
Definition falsy (content : option string) : bool :=
  match content with
  | None => true
  | Some "" => true
  | Some _ => false
  end.

Definition text (content : option string) : string := default "" content.

(** ** forumController.js *)

(** [String.prototype.toUpperCase] on ASCII text, which the roles of the
    identity provider are: the letters a to z are upper-cased, every other
    character is kept. On other text JavaScript follows Unicode's mapping,
    which can change the length; that is outside this definition. *)
Definition toUpperCase_ascii (c : ascii) : ascii :=
  let n := N_of_ascii c in
  if (97 <=? n) && (n <=? 122) then ascii_of_N (n - 32) else c.

Fixpoint toUpperCase (s : string) : string :=
  match s with
  | EmptyString => EmptyString
  | String c r => String (toUpperCase_ascii c) (toUpperCase r)
  end.

(** [s.charAt(i)]: the one-character string at [i], empty out of range. *)
Definition charAt (s : string) (i : nat) : string :=
  match String.get i s with
  | Some c => String c EmptyString
  | None => EmptyString
  end.

(** [s.slice(i)]: the string from index [i] on. *)
Definition slice (s : string) (i : nat) : string :=
  String.substring i (String.length s - i) s.

Definition capitalizeRole (role : string) : string :=
  toUpperCase (charAt role 0) +:+ slice role 1.

Definition populate_author_option : PopulateOptions :=
  Populate path_author [] None.

Definition commentPopulation : PopulateOptions :=
  Populate path_replies
    [ populate_author_option;
      Populate path_replies [ populate_author_option ] None ]
    None.

Definition getAllPosts : M Response :=
  posts ← Post_find_sort Descending;
  posts ← populate_posts populate_author_option posts;
  posts ← populate_posts
    (Populate path_comments [ populate_author_option; commentPopulation ]
       (Some Ascending)) posts;
  mret (mkResponse 200 (json_posts posts)).

Definition createPost (now : Timestamp) (req : ForumRequest) : M Response :=
  let content := body_content req in
  let authorId := user_id req in
  let authorType := capitalizeRole (user_role req) in
  if falsy content then
    mret (mkResponse 400 (json_message "Post content cannot be empty"))
  else
    post ← Post_create (mkPost (text content) authorId authorType [] now);
    found ← Post_findById post;
    populatedPost ← populate_post_opt populate_author_option found;
    mret (mkResponse 201 (json_post populatedPost)).

Definition createComment (now : Timestamp) (req : ForumRequest) : M Response :=
  let postId := params_postId req in
  let content := body_content req in
  let parentCommentId := body_parentCommentId req in
  let authorId := user_id req in
  let authorType := capitalizeRole (user_role req) in
  if falsy content then
    mret (mkResponse 400 (json_message "Comment content cannot be empty"))
  else
    newComment ← Comment_create
      (mkComment (text content) authorId authorType postId parentCommentId []
         now);
    match parentCommentId with
    | Some parentCommentId =>
      Comment_findByIdAndUpdate_push_replies parentCommentId newComment
    | None =>
      Post_findByIdAndUpdate_push_comments postId newComment
    end;;
    found ← Comment_findById newComment;
    populatedComment ← populate_comment_opt populate_author_option found;
    mret (mkResponse 201 (json_comment populatedComment)).

(** ** doctorController.js *)

Definition set_slots (new : list string) (e : Availability) : Availability :=
  mkAvailability (date e) new.

(** The body of [setAvailability] on the array: [find] yields the first
    entry of that date, which is then written through; without one the new
    entry is pushed. *)
Definition update_availability (d : string) (new : list string)
    (l : list Availability) : list Availability :=
  match list_find (λ e, date e = d) l with
  | Some (i, _) => alter (set_slots new) i l
  | None => l ++ [mkAvailability d new]
  end.

Definition setAvailability (req : DoctorRequest) : M Response :=
  let d := body_date req in
  let new := body_slots req in
  doctor ← Doctor_findById (req_doctorId req);
  match doctor with
  | None => mret (mkResponse 404 (json_message "Doctor not found"))
  | Some doctor =>
    let doctor := mkDoctor (doctor_name doctor) (doctor_specialization doctor)
                    (update_availability d new (availableSlots doctor)) in
    Doctor_save (req_doctorId req) doctor;;
    mret (mkResponse 200 (json_doctor "Availability updated" doctor))
  end.

Definition complete (a : Appointment) : Appointment :=
  mkAppointment (appt_doctorId a) (appt_userId a) (appt_date a) (appt_time a)
    "completed".

Definition markAppointmentCompleted (req : DoctorRequest) : M Response :=
  let doctorId := req_user_id req in
  let appointmentId := params_appointmentId req in
  appointment ← Appointment_findOne appointmentId doctorId;
  match appointment with
  | None =>
    mret (mkResponse 404 (json_message "Appointment not found or unauthorized"))
  | Some appointment =>
    if decide (appt_status appointment = "completed") then
      mret (mkResponse 400
              (json_message "Appointment already marked as completed"))
    else
      let appointment := complete appointment in
      Appointment_save appointmentId appointment;;
      mret (mkResponse 200
              (json_appointment "Appointment marked as completed successfully"
                 appointment))
  end.

(** ** The listing the specification describes *)

(** Follows the spec's words: a comment with its author resolved and its
    replies expanded the same way, [depth] levels down; below that the
    [replies] array is left as ids. *)
Fixpoint expand (s : Store) (depth : nat) (ic : ObjectId * Comment)
    : CommentView :=
  mkCommentView ic.1 ic.2
    (AuthorDoc
       (resolve_author s (comment_authorType ic.2) (comment_author ic.2)))
    (match depth with
     | O => Refs (comment_replies ic.2)
     | S d => Docs (expand s d <$> stored_comments s (comment_replies ic.2))
     end).

(** Follows the spec's words: the posts newest first, each with its author
    resolved and its comments oldest first, each comment expanded [depth]
    levels down. *)
Definition hydrate_post (s : Store) (depth : nat) (ip : ObjectId * Post)
    : PostView :=
  mkPostView ip.1 ip.2
    (AuthorDoc (resolve_author s (post_authorType ip.2) (post_author ip.2)))
    (Docs (expand s depth <$>
             sort_by (λ ic, comment_createdAt ic.2) (Some Ascending)
               (stored_comments s (post_comments ip.2)))).

Definition listing (s : Store) (depth : nat) : list PostView :=
  hydrate_post s depth <$>
    sort_by (λ ip, post_createdAt ip.2) (Some Descending)
      (map_to_list (Posts s)).

(** The ids a listed comment still shows bare, at any depth. *)
Fixpoint bare_ids (v : CommentView) : list ObjectId :=
  match v with
  | mkCommentView _ _ _ (Refs ids) => ids
  | mkCommentView _ _ _ (Docs l) => concat (bare_ids <$> l)
  end.

Definition post_bare_ids (v : PostView) : list ObjectId :=
  match pv_comments v with
  | Refs ids => ids
  | Docs l => concat (bare_ids <$> l)
  end.

(** A listed post is fully hydrated when none of the ids it shows bare names
    a stored comment. *)
Definition fully_hydrated (s : Store) (v : PostView) : Prop :=
  Forall (λ i, Comments s !! i = None) (post_bare_ids v).

#[global] Instance fully_hydrated_dec s v : Decision (fully_hydrated s v).
Proof. unfold fully_hydrated. apply _. Defined.

(** The posts of a response to [getAllPosts]. *)
Definition response_posts (r : Response) : list PostView :=
  match body r with
  | json_posts l => l
  | _ => []
  end.

(** ** Well-formed stores *)

(** Every id the store holds or links to has been handed out already: the
    next [Model.create] cannot collide with it. *)
Definition ids_below (n : ObjectId) (l : list ObjectId) : Prop :=
  Forall (λ j, j < n) l.

Definition store_wf (s : Store) : Prop :=
  map_Forall (λ i p, i < next_oid s ∧ ids_below (next_oid s) (post_comments p))
    (Posts s) ∧
  map_Forall (λ i c, i < next_oid s ∧ ids_below (next_oid s) (comment_replies c))
    (Comments s).

#[global] Instance store_wf_dec s : Decision (store_wf s).
Proof. unfold store_wf, ids_below. apply _. Defined.

(** A comment is reachable from a post's tree when a chain of linkage arrays
    leads to it from some post. *)
Inductive reachable (s : Store) : ObjectId → Prop :=
| reachable_top j p i :
    Posts s !! j = Some p → i ∈ post_comments p → reachable s i
| reachable_reply j c i :
    reachable s j → Comments s !! j = Some c → i ∈ comment_replies c →
    reachable s i.

(** The operations the forum routes expose. *)
Inductive ForumOp :=
| ListPosts
| CreatePost (now : Timestamp) (req : ForumRequest)
| CreateComment (now : Timestamp) (req : ForumRequest).

Definition run (op : ForumOp) : M Response :=
  match op with
  | ListPosts => getAllPosts
  | CreatePost now req => createPost now req
  | CreateComment now req => createComment now req
  end.

(** ** Vocabulary of the statements, and sample data *)

(** The documents the two handlers hand to [Model.create]. *)
Definition new_post (now : Timestamp) (req : ForumRequest) : Post :=
  mkPost (text (body_content req)) (user_id req)
    (capitalizeRole (user_role req)) [] now.

Definition new_comment (now : Timestamp) (req : ForumRequest) : Comment :=
  mkComment (text (body_content req)) (user_id req)
    (capitalizeRole (user_role req)) (params_postId req)
    (body_parentCommentId req) [] now.

(** The linkage update of [createComment] for a new comment [new]. *)
Definition linkage_write (req : ForumRequest) (new : ObjectId) : Write :=
  match body_parentCommentId req with
  | Some parent => PushReplies parent new
  | None => PushComments (params_postId req) new
  end.

(** A user, a doctor, and one post by the user with a top-level comment. *)
Definition sample_store : Store :=
  mkStore
    {[ 0 := mkPost "hello" 100 "User" [1] 10 ]}
    {[ 1 := mkComment "first" 200 "Doctor" 0 None [] 11 ]}
    {[ 100 := mkUser "ann" ]}
    {[ 200 := mkDoctor "bob" "cardiology" [mkAvailability "2025-01-01" ["09:00"]] ]}
    {[ 7 := mkAppointment 200 100 "2025-01-01" "09:00" "pending" ]}
    2.

Definition reply_request : ForumRequest :=
  mkForumRequest 0 (Some "a reply") (Some 1) 100 "user".

(** A reply to a comment that is not stored: 0 is the id of the post. *)
Definition orphan_request : ForumRequest :=
  mkForumRequest 0 (Some "lost") (Some 0) 100 "user".

Definition empty_request : ForumRequest :=
  mkForumRequest 0 (Some "") None 100 "user".
Definition missing_request : ForumRequest :=
  mkForumRequest 0 None None 100 "user".
Definition post_request : ForumRequest :=
  mkForumRequest 0 (Some "second post") None 200 "doctor".

(** The store [createComment] runs its linkage update on: the store with the
    new comment inserted. *)
Definition store_at_linkage (now : Timestamp) (req : ForumRequest) (s : Store)
    : Store :=
  bump_oid (set_Comments (insert (next_oid s) (new_comment now req)) s).

(** The linkage target names no document of that store. *)
Definition target_missing (now : Timestamp) (req : ForumRequest) (s : Store)
    : Prop :=
  match body_parentCommentId req with
  | Some parent => Comments (store_at_linkage now req s) !! parent = None
  | None => Posts (store_at_linkage now req s) !! params_postId req = None
  end.

(** A thread four comments deep, built by the handlers themselves from a
    store that holds one user and one doctor. *)
Definition forum_base : Store :=
  mkStore ∅ ∅ {[ 100 := mkUser "ann" ]}
    {[ 200 := mkDoctor "bob" "cardiology" [] ]} ∅ 0.

Definition by_user (postId : ObjectId) (content : string)
    (parent : option ObjectId) : ForumRequest :=
  mkForumRequest postId (Some content) parent 100 "user".

Definition by_doctor (postId : ObjectId) (content : string)
    (parent : option ObjectId) : ForumRequest :=
  mkForumRequest postId (Some content) parent 200 "doctor".

Definition four_deep : M unit :=
  createPost 10 (by_user 0 "post" None);;
  createComment 11 (by_doctor 0 "A" None);;
  createComment 12 (by_user 0 "B" (Some 1));;
  createComment 13 (by_doctor 0 "C" (Some 2));;
  createComment 14 (by_user 0 "D" (Some 3));;
  mret tt.

Definition four_deep_store : Store := store_after (four_deep forum_base).

Definition resolved (a : AuthorField) : Prop := ∃ d, a = AuthorDoc d.

Definition newest_first (v w : PostView) : Prop :=
  post_createdAt (pv_doc w) ≤ post_createdAt (pv_doc v).

Definition oldest_first (a b : CommentView) : Prop :=
  comment_createdAt (cv_doc a) ≤ comment_createdAt (cv_doc b).

(** What may differ between a stored document and the same document later:
    one id appended to the linkage array, and nothing else. *)
Definition post_frame (p p' : Post) : Prop :=
  post_content p' = post_content p ∧
  post_author p' = post_author p ∧
  post_authorType p' = post_authorType p ∧
  post_createdAt p' = post_createdAt p ∧
  (post_comments p' = post_comments p ∨
   ∃ j, post_comments p' = (post_comments p ++ [j])%list).

Definition comment_frame (c c' : Comment) : Prop :=
  comment_content c' = comment_content c ∧
  comment_author c' = comment_author c ∧
  comment_authorType c' = comment_authorType c ∧
  comment_post c' = comment_post c ∧
  comment_parentComment c' = comment_parentComment c ∧
  comment_createdAt c' = comment_createdAt c ∧
  (comment_replies c' = comment_replies c ∨
   ∃ j, comment_replies c' = (comment_replies c ++ [j])%list).

Definition availability_request : DoctorRequest :=
  mkDoctorRequest 200 200 7 "2025-01-01" ["10:00"; "11:00"].

Definition completion_request : DoctorRequest :=
  mkDoctorRequest 200 200 7 "" [].
Definition foreign_request : DoctorRequest :=
  mkDoctorRequest 201 201 7 "" [].

(** ** doctorController.js: the token check and the remaining handlers *)

(** [s.split(sep)] for a one-character separator: the pieces between the
    separators, the empty ones included. *)
Fixpoint split (sep : ascii) (s : string) : list string :=
  match s with
  | EmptyString => [EmptyString]
  | String c r =>
    if Ascii.eqb c sep then EmptyString :: split sep r
    else match split sep r with
         | [] => [String c EmptyString]
         | w :: ws => String c w :: ws
         end
  end.

(** [s.startsWith(p)] *)
Definition startsWith (s p : string) : bool := String.prefix p s.

(** [verifyDoctorToken]: either a response is sent, or [next()] is called
    with [req.doctorId] set. [jwt_verify token] stands for
    [jwt.verify(token, process.env.JWT_SECRET).id]; it is [None] when
    [jwt.verify] throws, as it does on a token that is not a string. *)
Definition verifyDoctorToken (jwt_verify : string → option ObjectId)
    (authorization : option string) : Response + ObjectId :=
  match authorization with
  | None => inl (mkResponse 401 (json_message "No token provided"))
  | Some authHeader =>
    if negb (startsWith authHeader "Bearer ") then
      inl (mkResponse 401 (json_message "No token provided"))
    else
      match token ← split " " authHeader !! 1%nat; jwt_verify token with
      | Some id => inr id
      | None => inl (mkResponse 403 (json_message "Invalid or expired token"))
      end
  end.

(** What [updateAppointmentStatus] reads: [req.doctorId], [req.params.id]
    and [req.body.status]. *)
Record StatusRequest := mkStatusRequest {
  status_doctorId : ObjectId;
  status_params_id : ObjectId;
  body_status : string
}.

(** [req.query.specialization] and [req.params.doctorId]. *)
Record SearchRequest := mkSearchRequest {
  query_specialization : option string
}.

Record SlotsRequest := mkSlotsRequest {
  params_doctorId : ObjectId
}.

(** The projection [select: "name email"] of a user document; of the two
    fields the store models the name. *)
Record PatientProjection := mkPatient {
  patient_id : ObjectId;
  patient_name : string
}.

(** An appointment with its [userId] populated: [None] is [null]. *)
Record AppointmentView := mkAppointmentView {
  av_id : ObjectId;
  av_doc : Appointment;
  av_userId : option PatientProjection
}.

Inductive DoctorBody :=
| json_failure (message : string)
| json_appointments (appointments : list AppointmentView)
| json_doctors (doctors : list (ObjectId * Doctor))
| json_availableSlots (slots : list Availability).

Record DoctorResponse := mkDoctorResponse {
  doctor_status : N;
  doctor_body : DoctorBody
}.

(** [Appointment.find({ doctorId })] *)
Definition Appointment_find (doctorId : ObjectId)
    : M (list (ObjectId * Appointment)) :=
  read (λ s, filter (λ ia, appt_doctorId ia.2 = doctorId)
               (map_to_list (Appointments s))).

(** [.populate("userId", "name email")] *)
Definition populate_userId (l : list (ObjectId * Appointment))
    : M (list AppointmentView) :=
  read (λ s, (λ ia, mkAppointmentView ia.1 ia.2
                      ((λ u, mkPatient (appt_userId ia.2) (user_name u))
                         <$> Users s !! appt_userId ia.2)) <$> l).

(** [.sort({ date: 1 })]: strings in ascending binary order. *)
Definition date_order (x y : AppointmentView) : Prop :=
  String.leb (appt_date (av_doc x)) (appt_date (av_doc y)).

#[global] Instance date_order_dec x y : Decision (date_order x y).
Proof. unfold date_order. apply _. Defined.

Definition getDoctorAppointments (req : DoctorRequest) : M DoctorResponse :=
  found ← Appointment_find (req_doctorId req);
  populated ← populate_userId found;
  let appointments := merge_sort date_order populated in
  mret (mkDoctorResponse 200 (json_appointments appointments)).

Definition with_status (status : string) (a : Appointment) : Appointment :=
  mkAppointment (appt_doctorId a) (appt_userId a) (appt_date a) (appt_time a)
    status.

(** [Appointment.findOneAndUpdate({ _id, doctorId }, { status }, { new: true })]:
    the matching document is updated and returned as updated; without a
    match nothing is written and the result is [null]. *)
Definition Appointment_findOneAndUpdate_status (id doctorId : ObjectId)
    (status : string) : M (option Appointment) :=
  found ← Appointment_findOne id doctorId;
  match found with
  | None => mret None
  | Some a =>
    Appointment_save id (with_status status a);;
    mret (Some (with_status status a))
  end.

Definition updateAppointmentStatus (req : StatusRequest) : M Response :=
  let status := body_status req in
  let id := status_params_id req in
  appointment ←
    Appointment_findOneAndUpdate_status id (status_doctorId req) status;
  match appointment with
  | None => mret (mkResponse 404 (json_message "Appointment not found"))
  | Some appointment =>
    mret (mkResponse 200 (json_appointment "Status updated" appointment))
  end.

(** [Doctor.find({ specialization })] *)
Definition Doctor_find (specialization : string)
    : M (list (ObjectId * Doctor)) :=
  read (λ s, filter (λ idoc, doctor_specialization idoc.2 = specialization)
               (map_to_list (Doctors s))).

Definition getDoctorsBySpecialization (req : SearchRequest)
    : M DoctorResponse :=
  let specialization := query_specialization req in
  if falsy specialization then
    mret (mkDoctorResponse 400 (json_failure "Specialization is required"))
  else
    doctors ← Doctor_find (text specialization);
    mret (mkDoctorResponse 200 (json_doctors doctors)).

Definition getDoctorSlots (req : SlotsRequest) : M DoctorResponse :=
  let doctorId := params_doctorId req in
  doctor ← Doctor_findById doctorId;
  match doctor with
  | None => mret (mkDoctorResponse 404 (json_failure "Doctor not found"))
  | Some doctor =>
    mret (mkDoctorResponse 200 (json_availableSlots (availableSlots doctor)))
  end.

(** A string without the character [sep]. *)
Fixpoint lacks (sep : ascii) (s : string) : bool :=
  match s with
  | EmptyString => true
  | String c r => negb (Ascii.eqb c sep) && lacks sep r
  end.

(** ** Vocabulary of the further statements *)

(** The [author] field of the document a creating handler answers with. *)
Definition response_author (r : Response) : option AuthorField :=
  match body r with
  | json_post (Some v) => Some (pv_author v)
  | json_comment (Some v) => Some (cv_author v)
  | _ => None
  end.

(** The child lists agree with the parent pointers: a stored comment listed
    in a post's [comments] names that post and has no parent, and a stored
    comment listed in a comment's [replies] names that comment as its
    parent. *)
Definition linkage_consistent (s : Store) : Prop :=
  (∀ j p i c, Posts s !! j = Some p → i ∈ post_comments p →
              Comments s !! i = Some c →
              comment_post c = j ∧ comment_parentComment c = None) ∧
  (∀ j c i c', Comments s !! j = Some c → i ∈ comment_replies c →
               Comments s !! i = Some c' →
               comment_parentComment c' = Some j).

(** No linkage array names an id twice. *)
Definition links_once (s : Store) : Prop :=
  map_Forall (λ _ p, NoDup (post_comments p)) (Posts s) ∧
  map_Forall (λ _ c, NoDup (comment_replies c)) (Comments s).

#[global] Instance links_once_dec s : Decision (links_once s).
Proof. unfold links_once. apply _. Defined.

(** A sequence of forum operations, run in order. *)
Fixpoint run_all (ops : list ForumOp) (s : Store) : Store :=
  match ops with
  | [] => s
  | op :: ops => run_all ops (store_after (run op s))
  end.

(** The ids of a list of comments as listed. *)
Definition listed_ids (l : list CommentView) : list ObjectId := cv_id <$> l.

(** The ids of an array that name a stored comment, in array order. *)
Definition stored_ids (s : Store) (ids : list ObjectId) : list ObjectId :=
  filter (λ i, is_Some (Comments s !! i)) ids.

(** A doctor with two entries of one date, and the forum of [sample_store]. *)
Definition duplicate_dates_store : Store :=
  mkStore
    {[ 0 := mkPost "hello" 100 "User" [1] 10 ]}
    {[ 1 := mkComment "first" 200 "Doctor" 0 None [] 11 ]}
    {[ 100 := mkUser "ann" ]}
    {[ 200 := mkDoctor "bob" "cardiology"
                [ mkAvailability "2025-01-02" ["08:00"];
                  mkAvailability "2025-01-01" ["09:00"];
                  mkAvailability "2025-01-01" ["12:00"] ] ]}
    ∅
    2.

(** The forum of [sample_store] with two ids that name no comment: 9 in the
    post's [comments], 8 in the comment's [replies]. *)
Definition dangling_store : Store :=
  mkStore
    {[ 0 := mkPost "hello" 100 "User" [9; 1] 10 ]}
    {[ 1 := mkComment "first" 200 "Doctor" 0 None [8] 11 ]}
    {[ 100 := mkUser "ann" ]}
    {[ 200 := mkDoctor "bob" "cardiology" [] ]}
    ∅
    10.

(** A verifier that accepts one token, as doctor 200. *)
Definition sample_jwt_verify (token : string) : option ObjectId :=
  if decide (token = "good") then Some 200 else None.

Definition top_level_request : ForumRequest :=
  mkForumRequest 0 (Some "second") None 100 "user".

(** ** Vocabulary of the revised statements *)

(** Some post's [comments], some comment's [replies], names the id. *)
Definition in_post_comments (s : Store) (i : ObjectId) : Prop :=
  map_Exists (λ _ p, i ∈ post_comments p) (Posts s).

Definition in_comment_replies (s : Store) (i : ObjectId) : Prop :=
  map_Exists (λ _ c, i ∈ comment_replies c) (Comments s).

(** The linkage of a new comment as one would expect it in every case:
    with a parent, the parent's [replies] name the new comment and no post
    does; without one, the post's [comments] name it and no comment does. *)
Definition linked_in_one_array (now : Timestamp) (req : ForumRequest)
    (s : Store) : Prop :=
  let s' := store_after (createComment now req s) in
  let new := next_oid s in
  match body_parentCommentId req with
  | Some parent =>
    (∃ c, Comments s' !! parent = Some c ∧ new ∈ comment_replies c) ∧
    ¬ in_post_comments s' new
  | None =>
    (∃ p, Posts s' !! params_postId req = Some p ∧ new ∈ post_comments p) ∧
    ¬ in_comment_replies s' new
  end.

(** The comments of a list as listed, id and document. *)
Definition listed_comments (l : list CommentView)
    : list (ObjectId * Comment) :=
  (λ a, (cv_id a, cv_doc a)) <$> l.

(** The data model's author kinds: every stored [authorType] is one of the
    two tags that name a collection. *)
Definition known_tag (t : string) : Prop := t = "User" ∨ t = "Doctor".

Definition authors_typed (s : Store) : Prop :=
  map_Forall (λ _ p, known_tag (post_authorType p)) (Posts s) ∧
  map_Forall (λ _ c, known_tag (comment_authorType c)) (Comments s).

#[global] Instance authors_typed_dec s : Decision (authors_typed s).
Proof. unfold authors_typed, known_tag. apply _. Defined.

(** A string of ASCII characters only. *)
Fixpoint ascii_only (s : string) : bool :=
  match s with
  | EmptyString => true
  | String c r => (N_of_ascii c <? 128) && ascii_only r
  end.

(** ** Basic facts about the store *)

Lemma store_wf_empty : store_wf empty_store.
Proof. split; apply map_Forall_empty. Qed.

Lemma store_wf_fresh_post s : store_wf s → Posts s !! next_oid s = None.
Proof.
  intros [Hp _]. destruct (Posts s !! next_oid s) as [p|] eqn:E; [|done].
  apply Hp in E as [E _]. lia.
Qed.

Lemma store_wf_fresh_comment s : store_wf s → Comments s !! next_oid s = None.
Proof.
  intros [_ Hc]. destruct (Comments s !! next_oid s) as [c|] eqn:E; [|done].
  apply Hc in E as [E _]. lia.
Qed.

Lemma store_wf_post_comments s j p i :
  store_wf s → Posts s !! j = Some p → i ∈ post_comments p → i < next_oid s.
Proof.
  intros [Hp _] Hj Hi. apply Hp in Hj as [_ Hj].
  unfold ids_below in Hj. rewrite Forall_forall in Hj. by apply Hj.
Qed.

Lemma store_wf_comment_replies s j c i :
  store_wf s → Comments s !! j = Some c → i ∈ comment_replies c →
  i < next_oid s.
Proof.
  intros [_ Hc] Hj Hi. apply Hc in Hj as [_ Hj].
  unfold ids_below in Hj. rewrite Forall_forall in Hj. by apply Hj.
Qed.

Lemma falsy_false_text content :
  falsy content = false → text content ≠ "".
Proof. destruct content as [[|a r]|]; simpl; congruence. Qed.

(** ** capitalizeRole *)

Lemma capitalizeRole_cons c r :
  capitalizeRole (String c r) = String (toUpperCase_ascii c) r.
Proof.
  unfold capitalizeRole, charAt, slice. simpl.
  f_equal. rewrite Nat.sub_0_r.
  induction r as [|a r IH]; simpl; [done|]. by rewrite IH.
Qed.

(** C7: the role-to-authorType derivation maps "user" to "User" and "doctor"
    to "Doctor": the first character is uppercased and the rest is kept, and
    [createPost] and [createComment] store that tag as the [authorType] of
    the document they create. *)
Theorem capitalizeRole_roles :
  capitalizeRole "user" = "User" ∧
  capitalizeRole "doctor" = "Doctor" ∧
  (∀ c r, capitalizeRole (String c r) = String (toUpperCase_ascii c) r) ∧
  (∀ now pid c r par uid role s,
     post_authorType <$>
       Posts (store_after
         (createPost now (mkForumRequest pid (Some (String c r)) par uid role) s))
         !! next_oid s
     = Some (capitalizeRole role)) ∧
  (∀ now pid c r par uid role s,
     comment_authorType <$>
       Comments (store_after
         (createComment now (mkForumRequest pid (Some (String c r)) par uid role) s))
         !! next_oid s
     = Some (capitalizeRole role)).
Proof.
  split_and!; [done|done|apply capitalizeRole_cons| |].
  - intros. simpl. by rewrite lookup_insert_eq.
  - intros. destruct par as [p|]; simpl.
    + rewrite lookup_alter. case_decide as E.
      * rewrite E, lookup_insert_eq. done.
      * by rewrite lookup_insert_eq.
    + by rewrite lookup_insert_eq.
Qed.

(** ** What the creating handlers do to the store *)

Lemma createPost_rejects now req s :
  falsy (body_content req) = true →
  createPost now req s
  = mkOutcome (mkResponse 400 (json_message "Post content cannot be empty")) s [].
Proof. intros H. unfold createPost. by rewrite H. Qed.

Lemma createComment_rejects now req s :
  falsy (body_content req) = true →
  createComment now req s
  = mkOutcome (mkResponse 400 (json_message "Comment content cannot be empty"))
      s [].
Proof. intros H. unfold createComment. by rewrite H. Qed.

Lemma createPost_store now req s :
  falsy (body_content req) = false →
  store_after (createPost now req s)
  = bump_oid (set_Posts (insert (next_oid s) (new_post now req)) s).
Proof. intros H. unfold createPost. by rewrite H. Qed.

Lemma createPost_journal now req s :
  falsy (body_content req) = false →
  journal (createPost now req s) = [InsertPost (next_oid s)].
Proof. intros H. unfold createPost. by rewrite H. Qed.

Lemma createComment_store now req s :
  falsy (body_content req) = false →
  store_after (createComment now req s)
  = match body_parentCommentId req with
    | Some parent =>
      set_Comments (alter (push_reply (next_oid s)) parent)
        (bump_oid (set_Comments (insert (next_oid s) (new_comment now req)) s))
    | None =>
      set_Posts (alter (push_comment (next_oid s)) (params_postId req))
        (bump_oid (set_Comments (insert (next_oid s) (new_comment now req)) s))
    end.
Proof.
  intros H. unfold createComment, new_comment. rewrite H.
  by destruct (body_parentCommentId req).
Qed.

Lemma createComment_journal now req s :
  falsy (body_content req) = false →
  journal (createComment now req s)
  = [InsertComment (next_oid s); linkage_write req (next_oid s)].
Proof.
  intros H. unfold createComment, linkage_write. rewrite H.
  by destruct (body_parentCommentId req).
Qed.

Lemma getAllPosts_store s : store_after (getAllPosts s) = s.
Proof. done. Qed.

(** Well-formedness is an invariant of the forum operations. *)
Lemma ids_below_mono n m l : n ≤ m → ids_below n l → ids_below m l.
Proof.
  intros Hnm H. eapply Forall_impl; [exact H|]. intros j Hj. simpl in Hj. lia.
Qed.

Lemma run_preserves_wf op s : store_wf s → store_wf (store_after (run op s)).
Proof.
  intros Hwf. destruct op as [|now req|now req]; simpl; [done| |].
  - destruct (falsy (body_content req)) eqn:Hc.
    { by rewrite createPost_rejects. }
    rewrite createPost_store by done. destruct Hwf as [Hp Hc']. split; simpl.
    + apply map_Forall_insert_2.
      * split; [lia|constructor].
      * eapply map_Forall_impl; [exact Hp|]. intros i p [Hi Hl]. split; [lia|].
        eapply ids_below_mono; [|exact Hl]. lia.
    + eapply map_Forall_impl; [exact Hc'|]. intros i c [Hi Hl]. split; [lia|].
      eapply ids_below_mono; [|exact Hl]. lia.
  - destruct (falsy (body_content req)) eqn:Hc.
    { by rewrite createComment_rejects. }
    rewrite createComment_store by done. destruct Hwf as [Hp Hc'].
    assert (Hins : map_Forall
              (λ i c, i < next_oid s + 1
                      ∧ ids_below (next_oid s + 1) (comment_replies c))
              (<[next_oid s := new_comment now req]> (Comments s))).
    { apply map_Forall_insert_2.
      - split; [lia|constructor].
      - eapply map_Forall_impl; [exact Hc'|]. intros i c [Hi Hl]. split; [lia|].
        eapply ids_below_mono; [|exact Hl]. lia. }
    assert (Hposts : map_Forall
              (λ i p, i < next_oid s + 1
                      ∧ ids_below (next_oid s + 1) (post_comments p))
              (Posts s)).
    { eapply map_Forall_impl; [exact Hp|]. intros i p [Hi Hl]. split; [lia|].
      eapply ids_below_mono; [|exact Hl]. lia. }
    destruct (body_parentCommentId req) as [parent|]; split; simpl; try done.
    + intros i c. rewrite lookup_alter. case_decide as E.
      * subst i. destruct (_ !! parent) as [c0|] eqn:E0; simpl; [|done].
        intros [= <-]. apply Hins in E0 as [Hi Hl]. split; [done|].
        simpl. apply Forall_app. split; [done|]. repeat constructor. lia.
      * apply Hins.
    + intros i p. rewrite lookup_alter. case_decide as E.
      * subst i. destruct (_ !! params_postId req) as [p0|] eqn:E0; simpl; [|done].
        intros [= <-]. apply Hposts in E0 as [Hi Hl]. split; [done|].
        simpl. apply Forall_app. split; [done|]. repeat constructor. lia.
      * apply Hposts.
Qed.

(** ** createComment: the linkage update *)

(** C1, as stated, fails: a reply to a parent id that names no comment is
    created, and neither the parent's [replies] nor any other array names
    it. *)
Lemma dangling_reply_in_no_array :
  ¬ (∀ now req s, store_wf s → falsy (body_content req) = false →
       linked_in_one_array now req s).
Proof.
  intros H.
  destruct (H 12 orphan_request sample_store) as [(c & Hc & _) _].
  - apply (bool_decide_unpack _). vm_compute. exact I.
  - reflexivity.
  - vm_compute in Hc. discriminate.
Qed.

(** C1, amended: a [createComment] with non-empty content issues, after the
    insertion of the new comment, exactly one linkage update: with a
    [parentCommentId], a push onto that comment's [replies], which appends
    the new id to the array when the comment is stored and changes nothing
    when it is not, the posts being left as they were; without one, a push
    onto the post's [comments], which appends the new id when the post is
    stored and changes nothing when it is not, no comment's [replies]
    being changed. Never are both arrays updated; at a target that is not
    stored neither is. *)
Theorem createComment_one_linkage now req s :
  falsy (body_content req) = false →
  let r := createComment now req s in
  let new := next_oid s in
  let s1 := store_at_linkage now req s in
  journal r = [InsertComment new; linkage_write req new] ∧
  filter is_linkage (journal r) = [linkage_write req new] ∧
  match body_parentCommentId req with
  | Some parent =>
    linkage_write req new = PushReplies parent new ∧
    Posts (store_after r) = Posts s ∧
    Comments (store_after r)
    = alter (push_reply new) parent
        (<[new := new_comment now req]> (Comments s)) ∧
    (∀ i, i ≠ parent → Comments (store_after r) !! i = Comments s1 !! i) ∧
    match Comments s1 !! parent with
    | Some c =>
      ∃ c', Comments (store_after r) !! parent = Some c' ∧
            comment_replies c' = (comment_replies c ++ [new])%list ∧
            comment_content c' = comment_content c ∧
            comment_author c' = comment_author c ∧
            comment_authorType c' = comment_authorType c ∧
            comment_post c' = comment_post c ∧
            comment_parentComment c' = comment_parentComment c ∧
            comment_createdAt c' = comment_createdAt c
    | None => Comments (store_after r) = Comments s1
    end
  | None =>
    linkage_write req new = PushComments (params_postId req) new ∧
    Posts (store_after r)
    = alter (push_comment new) (params_postId req) (Posts s) ∧
    Comments (store_after r) = <[new := new_comment now req]> (Comments s) ∧
    (∀ j, j ≠ params_postId req →
       Posts (store_after r) !! j = Posts s !! j) ∧
    match Posts s !! params_postId req with
    | Some p =>
      ∃ p', Posts (store_after r) !! params_postId req = Some p' ∧
            post_comments p' = (post_comments p ++ [new])%list ∧
            post_content p' = post_content p ∧
            post_author p' = post_author p ∧
            post_authorType p' = post_authorType p ∧
            post_createdAt p' = post_createdAt p
    | None => Posts (store_after r) = Posts s
    end
  end.
Proof.
  intros Hc r new s1. subst r new s1.
  rewrite createComment_journal, createComment_store by done.
  unfold linkage_write, store_at_linkage.
  destruct (body_parentCommentId req) as [parent|]; simpl.
  - split_and!; try done.
    + intros i Hi. by rewrite lookup_alter_ne.
    + destruct (_ !! parent) as [c|] eqn:E.
      * exists (push_reply (next_oid s) c). rewrite lookup_alter_eq, E.
        split_and!; done.
      * apply map_eq. intros i. rewrite lookup_alter. case_decide; [|done].
        subst i. by rewrite E.
  - split_and!; try done.
    + intros j Hj. by rewrite lookup_alter_ne.
    + destruct (Posts s !! params_postId req) as [p|] eqn:E.
      * exists (push_comment (next_oid s) p). rewrite lookup_alter_eq, E.
        split_and!; done.
      * apply map_eq. intros j. rewrite lookup_alter. case_decide; [|done].
        subst j. by rewrite E.
Qed.

Lemma sample_store_wf : store_wf sample_store.
Proof. apply (bool_decide_unpack _). vm_compute. exact I. Qed.

Lemma createComment_one_linkage_witness :
  falsy (body_content reply_request) = false ∧
  filter is_linkage (journal (createComment 12 reply_request sample_store))
  = [PushReplies 1 2] ∧
  ∃ c', Comments (store_after (createComment 12 reply_request sample_store))
          !! 1 = Some c' ∧
        comment_replies c' = [2].
Proof.
  split; [reflexivity|].
  destruct (createComment_one_linkage 12 reply_request sample_store eq_refl)
    as (_ & Hjournal & _ & _ & _ & _ & Hparent).
  split; [exact Hjournal|].
  destruct Hparent as (c' & Hlook & Hreplies & _).
  exists c'. split; [exact Hlook|exact Hreplies].
Defined.

(** ** Validation *)

(** C4: [createPost] and [createComment] answer an empty or missing content
    with status 400 and leave the store as it was, issuing no write; a
    [createPost] with non-empty content inserts one new Post document under
    an id the store did not hold, and nothing else. *)
Theorem empty_content_rejected now req s :
  (falsy (body_content req) = true →
     status (value (createPost now req s)) = 400 ∧
     store_after (createPost now req s) = s ∧
     journal (createPost now req s) = [] ∧
     status (value (createComment now req s)) = 400 ∧
     store_after (createComment now req s) = s ∧
     journal (createComment now req s) = []) ∧
  (falsy (body_content req) = false → store_wf s →
     status (value (createPost now req s)) = 201 ∧
     journal (createPost now req s) = [InsertPost (next_oid s)] ∧
     Posts s !! next_oid s = None ∧
     Posts (store_after (createPost now req s))
     = <[next_oid s := new_post now req]> (Posts s) ∧
     size (Posts (store_after (createPost now req s))) = S (size (Posts s)) ∧
     Comments (store_after (createPost now req s)) = Comments s).
Proof.
  split.
  - intros Hc. rewrite createPost_rejects, createComment_rejects by done. done.
  - intros Hc Hwf. pose proof (store_wf_fresh_post s Hwf) as Hfresh.
    rewrite createPost_journal, createPost_store by done. simpl.
    split_and!; try done.
    + unfold createPost. by rewrite Hc.
    + by apply map_size_insert_None.
Qed.

Lemma empty_content_rejected_witness :
  (falsy (body_content empty_request) = true ∧
   store_after (createComment 12 empty_request sample_store) = sample_store) ∧
  (falsy (body_content missing_request) = true ∧
   store_after (createPost 12 missing_request sample_store) = sample_store) ∧
  (falsy (body_content post_request) = false ∧ store_wf sample_store ∧
   size (Posts (store_after (createPost 12 post_request sample_store))) = 2%nat).
Proof.
  split_and!.
  - reflexivity.
  - apply (empty_content_rejected 12 empty_request sample_store). reflexivity.
  - reflexivity.
  - apply (empty_content_rejected 12 missing_request sample_store). reflexivity.
  - reflexivity.
  - apply (bool_decide_unpack _). vm_compute. exact I.
  - apply (empty_content_rejected 12 post_request sample_store).
    + reflexivity.
    + apply (bool_decide_unpack _). vm_compute. exact I.
Defined.

(** ** getAllPosts: how deep the population goes *)

Lemma populate_reply_of_reply s ic :
  fold_left (λ d o, populate_comment s o d) [populate_author_option]
    (raw_comment ic)
  = expand s 0 ic.
Proof. by destruct ic. Qed.

Lemma populate_reply s ic :
  fold_left (λ d o, populate_comment s o d)
    [populate_author_option; Populate path_replies [populate_author_option] None]
    (raw_comment ic)
  = expand s 1 ic.
Proof.
  destruct ic as [i c]. simpl. f_equal. f_equal.
  unfold fetch_comments. simpl. rewrite <- list_fmap_compose.
  apply list_fmap_ext. intros k ic _. apply populate_reply_of_reply.
Qed.

Lemma populate_top_level s ic :
  populate_comments s [populate_author_option; commentPopulation]
    (raw_comment ic)
  = expand s 2 ic.
Proof.
  destruct ic as [i c]. unfold populate_comments, commentPopulation.
  cbn [fold_left populate_comment populate_author_option raw_comment
       cv_replies cv_id cv_doc cv_author fst snd populate_author expand].
  f_equal. f_equal.
  unfold fetch_comments. cbn [sort_by]. rewrite <- list_fmap_compose.
  apply list_fmap_ext. intros k ic _. apply populate_reply.
Qed.

Lemma populate_listed_post s ip :
  populate_post s
    (Populate path_comments [populate_author_option; commentPopulation]
       (Some Ascending))
    (populate_post s populate_author_option (raw_post ip))
  = hydrate_post s 2 ip.
Proof.
  destruct ip as [i p]. unfold hydrate_post.
  cbn [populate_post populate_author_option raw_post pv_id pv_doc pv_author
       pv_comments fst snd populate_author].
  f_equal. f_equal. unfold fetch_comments. rewrite <- list_fmap_compose.
  apply list_fmap_ext. intros k ic _. apply populate_top_level.
Qed.

Lemma getAllPosts_listing s :
  getAllPosts s = mkOutcome (mkResponse 200 (json_posts (listing s 2))) s [].
Proof.
  unfold getAllPosts, listing.
  cbv beta iota zeta delta [Post_find_sort populate_posts read mbind M_bind
    mret M_ret value store_after journal app].
  f_equal. f_equal. f_equal.
  rewrite <- !list_fmap_compose.
  apply list_fmap_ext. intros k ip _. apply populate_listed_post.
Qed.

(** The listing of that thread: the post shows one bare id, 4, the id of its
    fourth comment, which is stored. *)
Example four_deep_listing :
  post_bare_ids <$> response_posts (value (getAllPosts four_deep_store))
  = [[4]] ∧
  comment_content <$> Comments four_deep_store !! 4 = Some "D".
Proof. split; vm_compute; reflexivity. Qed.

(** C2, as stated, fails: in the listing of a thread four comments deep the
    fourth comment is stored, and shown as a bare id. *)
Lemma four_deep_not_fully_hydrated :
  ¬ (∀ s v, v ∈ response_posts (value (getAllPosts s)) → fully_hydrated s v).
Proof.
  intros H.
  assert (Hall : Forall (fully_hydrated four_deep_store)
                   (response_posts (value (getAllPosts four_deep_store)))).
  { apply Forall_forall. intros v. apply H. }
  revert Hall. apply (bool_decide_unpack (¬ _)). vm_compute. exact I.
Qed.

Lemma expand_resolved s n ic : resolved (cv_author (expand s n ic)).
Proof. destruct n; simpl; by eexists. Qed.

Ltac solve_resolved := first [apply expand_resolved | by eexists].

(** C2, amended: [getAllPosts] answers 200 with the listing hydrated three
    levels of comments deep and no further: a top-level comment, its replies
    and their replies have the author resolved, the first two of them have
    the stored replies expanded, and the [replies] of a reply-of-reply are
    left as the bare ids stored. *)
Theorem getAllPosts_three_levels s :
  value (getAllPosts s) = mkResponse 200 (json_posts (listing s 2)) ∧
  (∀ v, v ∈ response_posts (value (getAllPosts s)) →
     resolved (pv_author v) ∧
     ∃ c, pv_comments v = Docs c ∧
     ∀ a, a ∈ c →
       resolved (cv_author a) ∧
       ∃ r, cv_replies a = Docs r ∧
       ∀ b, b ∈ r →
         resolved (cv_author b) ∧
         ∃ q, cv_replies b = Docs q ∧
         ∀ d, d ∈ q →
           resolved (cv_author d) ∧
           cv_replies d = Refs (comment_replies (cv_doc d))).
Proof.
  rewrite getAllPosts_listing. split; [done|]. simpl.
  intros v (ip & -> & _)%list_elem_of_fmap.
  split; [by eexists|]. eexists. split; [done|].
  intros a (ia & -> & _)%list_elem_of_fmap.
  split; [solve_resolved|]. eexists. split; [done|].
  intros b (ib & -> & _)%list_elem_of_fmap.
  split; [solve_resolved|]. eexists. split; [done|].
  intros d (id' & -> & _)%list_elem_of_fmap.
  split; [solve_resolved|]. done.
Qed.

(** ** getAllPosts: ordering *)

#[global] Instance by_createdAt_trans {A} (key : A → Timestamp) o :
  Transitive (by_createdAt key o).
Proof. intros x y z. unfold by_createdAt. destruct o; simpl; lia. Qed.

#[global] Instance by_createdAt_total {A} (key : A → Timestamp) o :
  Total (by_createdAt key o).
Proof. intros x y. unfold by_createdAt. destruct o; simpl; lia. Qed.

(** ** The frame of the forum operations *)

Lemma post_frame_refl p : post_frame p p.
Proof. unfold post_frame. tauto. Qed.

Lemma comment_frame_refl c : comment_frame c c.
Proof. unfold comment_frame. tauto. Qed.

Lemma post_frame_push j p : post_frame p (push_comment j p).
Proof. unfold post_frame. simpl. split_and!; eauto. Qed.

Lemma comment_frame_push j c : comment_frame c (push_reply j c).
Proof. unfold comment_frame. simpl. split_and!; eauto. Qed.

Create HintDb frame.
#[local] Hint Resolve post_frame_refl comment_frame_refl post_frame_push
  comment_frame_push : frame.

(** C8: no forum operation deletes a Post or a Comment; every document
    stored before an operation is stored after it under the same id, with
    every field as it was except that one id may have been appended to its
    [comments] or [replies] array; and an operation modifies at most one
    stored document. *)
Theorem forum_frame op s :
  store_wf s →
  let s' := store_after (run op s) in
  (∀ i p, Posts s !! i = Some p →
     ∃ p', Posts s' !! i = Some p' ∧ post_frame p p') ∧
  (∀ i c, Comments s !! i = Some c →
     ∃ c', Comments s' !! i = Some c' ∧ comment_frame c c') ∧
  (∃ k, (∀ i p, i ≠ k → Posts s !! i = Some p → Posts s' !! i = Some p) ∧
        (∀ i c, Comments s !! i = Some c → Comments s' !! i = Some c)
        ∨
        (∀ i p, Posts s !! i = Some p → Posts s' !! i = Some p) ∧
        (∀ i c, i ≠ k → Comments s !! i = Some c → Comments s' !! i = Some c)).
Proof.
  intros Hwf s'. subst s'.
  pose proof (store_wf_fresh_post s Hwf) as Hfp.
  pose proof (store_wf_fresh_comment s Hwf) as Hfc.
  destruct op as [|now req|now req]; simpl.
  - split_and!; [eauto with frame..|]. exists 0. by left.
  - destruct (falsy (body_content req)) eqn:Hc.
    { rewrite createPost_rejects by done. simpl.
      split_and!; [eauto with frame..|]. exists 0. by left. }
    rewrite createPost_store by done. simpl.
    assert (Hold : ∀ i p, Posts s !! i = Some p →
              <[next_oid s := new_post now req]> (Posts s) !! i = Some p).
    { intros i p Hi. rewrite lookup_insert_ne; [done|congruence]. }
    split_and!; [eauto with frame..|]. exists 0. left. eauto.
  - destruct (falsy (body_content req)) eqn:Hc.
    { rewrite createComment_rejects by done. simpl.
      split_and!; [eauto with frame..|]. exists 0. by left. }
    rewrite createComment_store by done.
    assert (Hold : ∀ i c, Comments s !! i = Some c →
              <[next_oid s := new_comment now req]> (Comments s) !! i = Some c).
    { intros i c Hi. rewrite lookup_insert_ne; [done|congruence]. }
    destruct (body_parentCommentId req) as [parent|]; simpl.
    + split_and!; [eauto with frame| |].
      * intros i c Hi. rewrite lookup_alter. case_decide as E.
        -- subst i. rewrite (Hold _ _ Hi). simpl. eauto with frame.
        -- rewrite (Hold _ _ Hi). eauto with frame.
      * exists parent. right. split; [done|].
        intros i c Hne Hi. rewrite lookup_alter_ne by done. eauto.
    + split_and!; [|eauto with frame|].
      * intros i p Hi. rewrite lookup_alter. case_decide as E.
        -- subst i. rewrite Hi. simpl. eauto with frame.
        -- eauto with frame.
      * exists (params_postId req). left. split; [|done].
        intros i p Hne Hi. by rewrite lookup_alter_ne.
Qed.

Lemma forum_frame_witness :
  store_wf sample_store ∧
  ∃ c', Comments (store_after (run (CreateComment 12 reply_request) sample_store))
          !! 1 = Some c' ∧
        comment_frame (mkComment "first" 200 "Doctor" 0 None [] 11) c'.
Proof.
  split.
  - apply (bool_decide_unpack _). vm_compute. exact I.
  - apply (forum_frame (CreateComment 12 reply_request) sample_store).
    + apply (bool_decide_unpack _). vm_compute. exact I.
    + reflexivity.
Defined.

(** ** Listings of two stores that agree on the ids handed out *)

Lemma elem_of_sort_by {A} (key : A → Timestamp) o (l : list A) x :
  x ∈ sort_by key o l ↔ x ∈ l.
Proof.
  destruct o as [o|]; simpl; [|done]. by rewrite merge_sort_Permutation.
Qed.

Lemma elem_of_stored_comments s ids i c :
  (i, c) ∈ stored_comments s ids ↔ i ∈ ids ∧ Comments s !! i = Some c.
Proof.
  unfold stored_comments. rewrite list_elem_of_omap. split.
  - intros (j & Hj & Hl). destruct (Comments s !! j) as [c'|] eqn:E;
      simpl in Hl; [|done]. by injection Hl as -> ->.
  - intros [Hi Hl]. exists i. split; [done|]. by rewrite Hl.
Qed.

Lemma stored_comments_agree s s' ids :
  (∀ i, i ∈ ids → Comments s' !! i = Comments s !! i) →
  stored_comments s' ids = stored_comments s ids.
Proof.
  intros H. unfold stored_comments. apply list_omap_ext.
  apply Forall2_same_length_lookup. split; [done|].
  intros k i j Hi Hj. rewrite Hi in Hj. injection Hj as <-.
  rewrite H; [done|]. by eapply list_elem_of_lookup_2.
Qed.

Section agree.
Variables s s' : Store.
Hypothesis Hwf : store_wf s.
Hypothesis Husers : Users s' = Users s.
Hypothesis Hdoctors : Doctors s' = Doctors s.
Hypothesis Hcomments :
    ∀ i, i < next_oid s → Comments s' !! i = Comments s !! i.

Lemma resolve_author_agree t i : resolve_author s' t i = resolve_author s t i.
Proof. unfold resolve_author. by rewrite Husers, Hdoctors. Qed.

Lemma stored_comments_below ids :
    ids_below (next_oid s) ids →
    stored_comments s' ids = stored_comments s ids.
Proof.
    intros Hb. apply stored_comments_agree. intros i Hi. apply Hcomments.
    unfold ids_below in Hb. rewrite Forall_forall in Hb. by apply Hb.
Qed.

Lemma expand_agree n ic :
    ids_below (next_oid s) (comment_replies ic.2) →
    expand s' n ic = expand s n ic.
Proof.
    revert ic. induction n as [|n IH]; intros [i c] Hb; simpl in *.
    - by rewrite resolve_author_agree.
    - rewrite resolve_author_agree, stored_comments_below by done.
      do 2 f_equal. apply list_fmap_ext. intros k [j d] Hk. apply IH. simpl.
      apply list_elem_of_lookup_2, elem_of_stored_comments in Hk as [_ Hj].
      destruct Hwf as [_ Hc]. by apply Hc in Hj as [_ Hj].
Qed.

Lemma hydrate_post_agree n ip :
    ids_below (next_oid s) (post_comments ip.2) →
    hydrate_post s' n ip = hydrate_post s n ip.
Proof.
    destruct ip as [i p]. intros Hb. unfold hydrate_post. cbn [fst snd] in *.
    rewrite resolve_author_agree, stored_comments_below by done.
    do 2 f_equal. apply list_fmap_ext. intros k [j d] Hk. apply expand_agree.
    simpl.
    apply list_elem_of_lookup_2, elem_of_sort_by, elem_of_stored_comments
      in Hk as [_ Hj].
    destruct Hwf as [_ Hc]. by apply Hc in Hj as [_ Hj].
Qed.

Lemma listing_agree n : Posts s' = Posts s → listing s' n = listing s n.
Proof.
    intros Hposts. unfold listing. rewrite Hposts.
    apply list_fmap_ext. intros k [i p] Hk. apply hydrate_post_agree. simpl.
    apply list_elem_of_lookup_2, elem_of_sort_by, elem_of_map_to_list in Hk.
    destruct Hwf as [Hp _]. by apply Hp in Hk as [_ Hk].
Qed.
End agree.

(** ** getAllPosts: what is listed, and in which order *)

Lemma listed_comments_expand s n (l : list (ObjectId * Comment)) :
  listed_comments (expand s n <$> l) = l.
Proof.
  unfold listed_comments. rewrite <- list_fmap_compose.
  rewrite (list_fmap_ext _ id); [apply list_fmap_id|].
  intros k [i c] _. by destruct n.
Qed.

(** C3: in every state of the store, [getAllPosts] lists all the stored
    posts, newest first by [createdAt], and within each listed post its
    top-level comments, oldest first by [createdAt]: the comments listed
    under a post are the stored comments its [comments] array names, each
    once when the array names no id twice. *)
Theorem getAllPosts_ordering s :
  let l := response_posts (value (getAllPosts s)) in
  StronglySorted newest_first l ∧
  (λ v, (pv_id v, pv_doc v)) <$> l ≡ₚ map_to_list (Posts s) ∧
  ∀ v, v ∈ l →
    ∃ c, pv_comments v = Docs c ∧ StronglySorted oldest_first c ∧
      (∀ i d, (i, d) ∈ listed_comments c ↔
              i ∈ post_comments (pv_doc v) ∧ Comments s !! i = Some d) ∧
      (NoDup (post_comments (pv_doc v)) →
       NoDup (cv_id <$> c) ∧
       listed_comments c ≡ₚ stored_comments s (post_comments (pv_doc v))).
Proof.
  rewrite getAllPosts_listing. unfold response_posts, listing.
  cbn [value body sort_by].
  split_and!.
  - eapply StronglySorted_fmap; [|apply StronglySorted_merge_sort; apply _].
    intros [i p] [j q] H. exact H.
  - rewrite <- list_fmap_compose.
    rewrite (list_fmap_ext _ id).
    + rewrite list_fmap_id. apply merge_sort_Permutation.
    + by intros k [i p] _.
  - intros v ([j p] & -> & _)%list_elem_of_fmap.
    unfold hydrate_post. cbn [pv_comments pv_doc fst snd sort_by].
    eexists. split; [reflexivity|]. split_and!.
    + eapply StronglySorted_fmap; [|apply StronglySorted_merge_sort; apply _].
      intros [i c] [k d] H. exact H.
    + intros i d. rewrite listed_comments_expand, merge_sort_Permutation.
      apply elem_of_stored_comments.
    + intros Hnd. split.
      * assert (Hids : cv_id <$> (expand s 2 <$>
                  merge_sort
                    (by_createdAt (λ ic : ObjectId * Comment,
                                     comment_createdAt ic.2) Ascending)
                    (stored_comments s (post_comments p)))
                ≡ₚ (stored_comments s (post_comments p)).*1).
        { rewrite <- list_fmap_compose.
          rewrite (list_fmap_ext _ fst); [|by intros k [i c] _].
          by rewrite merge_sort_Permutation. }
        rewrite Hids. apply NoDup_fmap_fst.
        -- intros i x y [_ Hx]%elem_of_stored_comments
             [_ Hy]%elem_of_stored_comments. congruence.
        -- unfold stored_comments. clear Hids.
           induction Hnd as [|i ids Hi Hnd IH]; csimpl; [constructor|].
           destruct (Comments s !! i) as [c|]; simpl; [|done].
           constructor; [|done]. rewrite list_elem_of_omap.
           intros (k & Hk & Hl). destruct (Comments s !! k); simpl in Hl;
             [|done]. injection Hl as -> _. done.
      * rewrite listed_comments_expand. apply merge_sort_Permutation.
Qed.

Lemma getAllPosts_ordering_witness :
  ∃ v c,
    v ∈ response_posts (value (getAllPosts sample_store)) ∧
    pv_comments v = Docs c ∧
    NoDup (post_comments (pv_doc v)) ∧
    listed_comments c ≡ₚ [(1, mkComment "first" 200 "Doctor" 0 None [] 11)].
Proof.
  assert (H : mkPostView 0 (mkPost "hello" 100 "User" [1] 10)
    (AuthorDoc (Some (mkAuthor 100 "ann" None)))
    (Docs [mkCommentView 1 (mkComment "first" 200 "Doctor" 0 None [] 11)
             (AuthorDoc (Some (mkAuthor 200 "bob" (Some "cardiology"))))
             (Docs [])])
  ∈ response_posts (value (getAllPosts sample_store))).
  { vm_compute. apply list_elem_of_here. }
  destruct (getAllPosts_ordering sample_store) as (_ & _ & Hcomments).
  destruct (Hcomments _ H) as (c & Hc & _ & _ & Hperm).
  assert (Hnd : NoDup [1]).
  { apply (bool_decide_unpack _). vm_compute. exact I. }
  eexists. exists c. split_and!.
  - exact H.
  - exact Hc.
  - exact Hnd.
  - exact (proj2 (Hperm Hnd)).
Defined.

(** ** A dangling linkage target *)

Lemma alter_missing {A} (f : A → A) (m : gmap N A) i :
  m !! i = None → alter f i m = m.
Proof.
  intros H. apply map_eq. intros j. rewrite lookup_alter.
  case_decide as E; [|done]. subst j. by rewrite H.
Qed.

Lemma not_reachable_unlinked s i :
  (∀ j p, Posts s !! j = Some p → i ∉ post_comments p) →
  (∀ j c, Comments s !! j = Some c → i ∉ comment_replies c) →
  ¬ reachable s i.
Proof.
  intros Hp Hc Hr. inversion Hr as [j p i' Hj Hi|j c i' _ Hj Hi]; subst.
  - by eapply Hp.
  - by eapply Hc.
Qed.

(** C5: when the linkage target ([parentCommentId] when present, [postId]
    otherwise) names no document, a [createComment] with non-empty content
    still answers 201 with the new comment; the comment is stored, the
    linkage update changes nothing, and the new comment is reachable from no
    post's tree. *)
Theorem createComment_dangling_target now req s :
  store_wf s →
  falsy (body_content req) = false →
  target_missing now req s →
  let r := createComment now req s in
  let new := next_oid s in
  value r
  = mkResponse 201
      (json_comment (Some
         (mkCommentView new (new_comment now req)
            (AuthorDoc (resolve_author s (capitalizeRole (user_role req))
                          (user_id req)))
            (Refs [])))) ∧
  store_after r = store_at_linkage now req s ∧
  Comments s !! new = None ∧
  Comments (store_after r) !! new = Some (new_comment now req) ∧
  (∀ i, i ≠ new → Comments (store_after r) !! i = Comments s !! i) ∧
  Posts (store_after r) = Posts s ∧
  ¬ reachable (store_after r) new ∧
  value (getAllPosts (store_after r)) = value (getAllPosts s).
Proof.
  intros Hwf Hc Hmiss r new. subst r new.
  assert (Hst : store_after (createComment now req s) = store_at_linkage now req s).
  { rewrite createComment_store by done. unfold target_missing in Hmiss.
    unfold store_at_linkage in *.
    destruct (body_parentCommentId req) as [parent|]; simpl in *.
    - unfold set_Comments at 1. simpl. by rewrite alter_missing.
    - unfold set_Posts at 1. simpl. by rewrite alter_missing. }
  split_and!.
  - unfold createComment. rewrite Hc.
    unfold target_missing, store_at_linkage, new_comment in Hmiss.
    destruct (body_parentCommentId req) as [parent|] eqn:Hpar; simpl in *.
    + rewrite alter_missing by done. rewrite lookup_insert_eq. simpl.
      unfold new_comment. rewrite Hpar. done.
    + rewrite lookup_insert_eq. simpl. unfold new_comment. rewrite Hpar. done.
  - done.
  - by apply store_wf_fresh_comment.
  - rewrite Hst. simpl. apply lookup_insert_eq.
  - intros i Hi. rewrite Hst. simpl. by rewrite lookup_insert_ne.
  - by rewrite Hst.
  - rewrite Hst. apply not_reachable_unlinked; simpl.
    + intros j p Hj Hi. pose proof (store_wf_post_comments _ _ _ _ Hwf Hj Hi). lia.
    + intros j c. rewrite lookup_insert. case_decide as E.
      * intros [= <-]. simpl. apply not_elem_of_nil.
      * intros Hj Hi.
        pose proof (store_wf_comment_replies _ _ _ _ Hwf Hj Hi). lia.
  - rewrite !getAllPosts_listing, Hst. simpl. do 2 f_equal.
    apply listing_agree; try done.
    intros i Hi. simpl. rewrite lookup_insert_ne; [done|lia].
Qed.

Lemma createComment_dangling_target_witness :
  store_wf sample_store ∧
  falsy (body_content orphan_request) = false ∧
  target_missing 12 orphan_request sample_store ∧
  Posts (store_after (createComment 12 orphan_request sample_store))
  = Posts sample_store ∧
  ¬ reachable (store_after (createComment 12 orphan_request sample_store)) 2.
Proof.
  split_and!.
  - apply (bool_decide_unpack _). vm_compute. exact I.
  - reflexivity.
  - vm_compute. reflexivity.
  - apply (createComment_dangling_target 12 orphan_request sample_store).
    + apply (bool_decide_unpack _). vm_compute. exact I.
    + reflexivity.
    + vm_compute. reflexivity.
  - apply (createComment_dangling_target 12 orphan_request sample_store).
    + apply (bool_decide_unpack _). vm_compute. exact I.
    + reflexivity.
    + vm_compute. reflexivity.
Defined.

(** ** Reply linkage, round trip *)

(** C6: from a store holding a post P, after a [createComment] that creates
    the top-level comment A on P and a [createComment] that creates B with
    [parentCommentId] the id of A, the listing shows P with A among its
    comments, the replies of A being exactly B, and B not among the
    top-level comments of P. *)
Theorem reply_linkage_round_trip s P p nowA nowB textA textB uA rA uB rB postB :
  store_wf s →
  Posts s !! P = Some p →
  textA ≠ "" →
  textB ≠ "" →
  let reqA := mkForumRequest P (Some textA) None uA rA in
  let A := next_oid s in
  let sA := store_after (createComment nowA reqA s) in
  let reqB := mkForumRequest postB (Some textB) (Some A) uB rB in
  let B := next_oid sA in
  let sB := store_after (createComment nowB reqB sA) in
  ∃ v c a b,
    v ∈ response_posts (value (getAllPosts sB)) ∧
    pv_id v = P ∧
    pv_comments v = Docs c ∧
    a ∈ c ∧
    cv_id a = A ∧
    comment_content (cv_doc a) = textA ∧
    cv_replies a = Docs [b] ∧
    cv_id b = B ∧
    cv_doc b = new_comment nowB reqB ∧
    (∀ x, x ∈ c → cv_id x ≠ B).
Proof.
  intros Hwf HP HtA HtB reqA A sA reqB B sB.
  assert (HfA : falsy (body_content reqA) = false) by by destruct textA.
  assert (HfB : falsy (body_content reqB) = false) by by destruct textB.
  assert (HsA : sA = set_Posts (alter (push_comment A) P)
                  (bump_oid (set_Comments (insert A (new_comment nowA reqA)) s))).
  { subst sA. by rewrite createComment_store. }
  assert (HB : B = A + 1) by (subst B; by rewrite HsA).
  assert (HsB : sB = set_Comments (alter (push_reply B) A)
                  (bump_oid (set_Comments (insert B (new_comment nowB reqB)) sA))).
  { subst sB. by rewrite createComment_store. }
  assert (HAB : A ≠ B) by lia.
  assert (HlookP : Posts sB !! P = Some (push_comment A p)).
  { rewrite HsB, HsA. simpl. by rewrite lookup_alter_eq, HP. }
  assert (HlookA : Comments sB !! A
                   = Some (push_reply B (new_comment nowA reqA))).
  { rewrite HsB, HsA. simpl.
    rewrite lookup_alter_eq, lookup_insert_ne, lookup_insert_eq by done. done. }
  assert (HlookB : Comments sB !! B = Some (new_comment nowB reqB)).
  { rewrite HsB. simpl. rewrite lookup_alter_ne, lookup_insert_eq by done. done. }
  rewrite getAllPosts_listing. unfold response_posts, listing. simpl.
  exists (hydrate_post sB 2 (P, push_comment A p)).
  eexists. exists (expand sB 2 (A, push_reply B (new_comment nowA reqA))).
  exists (expand sB 1 (B, new_comment nowB reqB)).
  split_and!.
  - apply list_elem_of_fmap_2. rewrite merge_sort_Permutation.
    by apply elem_of_map_to_list.
  - done.
  - done.
  - apply list_elem_of_fmap_2. apply elem_of_sort_by.
    apply elem_of_stored_comments. split; [|done]. simpl.
    apply elem_of_app. right. apply list_elem_of_singleton. done.
  - done.
  - done.
  - simpl. unfold stored_comments. simpl. rewrite HlookB. done.
  - done.
  - done.
  - intros x (ic & -> & Hic)%list_elem_of_fmap. destruct ic as [i c].
    apply elem_of_sort_by, elem_of_stored_comments in Hic as [Hi _].
    simpl in Hi.
    apply elem_of_app in Hi as [Hi|Hi].
    + pose proof (store_wf_post_comments _ _ _ _ Hwf HP Hi) as Hlt.
      simpl. unfold A in HB. lia.
    + apply list_elem_of_singleton in Hi. simpl. lia.
Qed.

Lemma reply_linkage_round_trip_witness :
  store_wf sample_store ∧
  Posts sample_store !! 0 = Some (mkPost "hello" 100 "User" [1] 10) ∧
  "A" ≠ "" ∧ "B" ≠ "" ∧
  ∃ v c a b,
    v ∈ response_posts (value (getAllPosts
          (store_after (createComment 21
             (mkForumRequest 0 (Some "B") (Some 2) 200 "doctor")
             (store_after (createComment 20
                (mkForumRequest 0 (Some "A") None 100 "user")
                sample_store)))))) ∧
    pv_id v = 0 ∧ pv_comments v = Docs c ∧ a ∈ c ∧ cv_id a = 2 ∧
    comment_content (cv_doc a) = "A" ∧ cv_replies a = Docs [b] ∧
    cv_id b = 3 ∧
    cv_doc b = mkComment "B" 200 "Doctor" 0 (Some 2) [] 21 ∧
    (∀ x, x ∈ c → cv_id x ≠ 3).
Proof.
  split_and!.
  - apply (bool_decide_unpack _). vm_compute. exact I.
  - reflexivity.
  - discriminate.
  - discriminate.
  - apply (reply_linkage_round_trip sample_store 0
             (mkPost "hello" 100 "User" [1] 10) 20 21 "A" "B"
             100 "user" 200 "doctor" 0).
    + apply (bool_decide_unpack _). vm_compute. exact I.
    + reflexivity.
    + discriminate.
    + discriminate.
Defined.

(** ** setAvailability *)

Lemma set_slots_dates new (i : nat) (l : list Availability) :
  date <$> alter (set_slots new) i l = date <$> l.
Proof.
  apply list_eq. intros j. rewrite !list_lookup_fmap, list_lookup_alter.
  case_decide as E; [|done]. subst j. by destruct (l !! i).
Qed.

Lemma update_availability_found d new (l : list Availability) (i : nat) e :
  NoDup (date <$> l) → l !! i = Some e → date e = d →
  update_availability d new l = <[i := mkAvailability d new]> l.
Proof.
  intros Hnd Hi Hd. unfold update_availability.
  destruct (list_find _ l) as [[j e']|] eqn:Hfind.
  - apply list_find_Some in Hfind as (Hj & Hd' & _).
    assert (j = i) as ->.
    { eapply NoDup_lookup; [exact Hnd| |]; rewrite list_lookup_fmap.
      - by rewrite Hj.
      - rewrite Hi. simpl. congruence. }
    assert (Hlt : (i < length l)%nat) by by eapply lookup_lt_Some.
    apply list_eq. intros k. destruct (decide (k = i)) as [->|Hne].
    + rewrite list_lookup_alter_eq, list_lookup_insert_eq by done.
      rewrite Hi. simpl. unfold set_slots. by rewrite Hd.
    + rewrite list_lookup_alter_ne, list_lookup_insert_ne by done. done.
  - apply list_find_None in Hfind. rewrite Forall_forall in Hfind.
    destruct (Hfind e); [|done]. by eapply list_elem_of_lookup_2.
Qed.

Lemma update_availability_absent d new l :
  (∀ e, e ∈ l → date e ≠ d) →
  update_availability d new l = (l ++ [mkAvailability d new])%list.
Proof.
  intros Habs. unfold update_availability.
  destruct (list_find _ l) as [[j e']|] eqn:Hfind; [|done].
  apply list_find_Some in Hfind as (Hj & Hd' & _).
  destruct (Habs e'); [|done]. by eapply list_elem_of_lookup_2.
Qed.

Lemma update_availability_spec d new l :
  NoDup (date <$> l) →
  let l' := update_availability d new l in
  NoDup (date <$> l') ∧
  (∃ e, e ∈ l' ∧ date e = d) ∧
  (∀ e, e ∈ l' → date e = d → slots e = new) ∧
  (∀ i e, l !! i = Some e → date e ≠ d → l' !! i = Some e) ∧
  (∀ e, e ∈ l' → date e ≠ d → e ∈ l).
Proof.
  intros Hnd l'. subst l'. unfold update_availability.
  destruct (list_find _ l) as [[i e0]|] eqn:Hfind.
  - apply list_find_Some in Hfind as (Hi & Hd & _).
    assert (Hlook : ∀ j e, alter (set_slots new) i l !! j = Some e →
              (j = i ∧ e = set_slots new e0) ∨ (j ≠ i ∧ l !! j = Some e)).
    { intros j e. rewrite list_lookup_alter. case_decide as E.
      - subst j. rewrite Hi. simpl. intros [= <-]. by left.
      - intros Hj. right. split; [congruence|done]. }
    split_and!.
    + by rewrite set_slots_dates.
    + exists (set_slots new e0). split; [|done].
      eapply list_elem_of_lookup_2. by rewrite list_lookup_alter_eq, Hi.
    + intros e [j Hj]%list_elem_of_lookup He.
      apply Hlook in Hj as [[_ ->]|[Hne Hj]]; [done|].
      destruct Hne. eapply NoDup_lookup; [exact Hnd| |];
        rewrite list_lookup_fmap.
      * by rewrite Hj.
      * rewrite Hi. simpl. congruence.
    + intros j e Hj Hne. rewrite list_lookup_alter_ne; [done|].
      intros <-. rewrite Hi in Hj. congruence.
    + intros e [j Hj]%list_elem_of_lookup Hne.
      apply Hlook in Hj as [[_ ->]|[_ Hj]]; [done|].
      by eapply list_elem_of_lookup_2.
  - apply list_find_None in Hfind. rewrite Forall_forall in Hfind.
    split_and!.
    + rewrite fmap_app. apply NoDup_app. split_and!; [done| |].
      * intros x (e & -> & He)%list_elem_of_fmap Hx.
        apply list_elem_of_singleton in Hx. by apply (Hfind e).
      * apply NoDup_singleton.
    + exists (mkAvailability d new). split; [|done].
      apply elem_of_app. right. by apply list_elem_of_singleton.
    + intros e [He| ->%list_elem_of_singleton]%elem_of_app Hd; [|done].
      by destruct (Hfind e).
    + intros i e Hi _. by apply lookup_app_l_Some.
    + intros e [He| ->%list_elem_of_singleton]%elem_of_app Hd; done.
Qed.

(** C9: for a doctor whose [availableSlots] hold at most one entry per date,
    [setAvailability] answers 200 and saves the doctor with a list that
    still holds at most one entry per date; the entry of the given date
    holds exactly the given slots, replaced in place when there was one and
    appended otherwise, and the entries of the other dates are as they
    were. *)
Theorem setAvailability_unique_dates req s doc :
  Doctors s !! req_doctorId req = Some doc →
  NoDup (date <$> availableSlots doc) →
  let r := setAvailability req s in
  let d := body_date req in
  let new := body_slots req in
  let l := availableSlots doc in
  ∃ doc',
    status (value r) = 200 ∧
    body (value r) = json_doctor "Availability updated" doc' ∧
    Doctors (store_after r) = <[req_doctorId req := doc']> (Doctors s) ∧
    doctor_name doc' = doctor_name doc ∧
    doctor_specialization doc' = doctor_specialization doc ∧
    let l' := availableSlots doc' in
    NoDup (date <$> l') ∧
    (∃ e, e ∈ l' ∧ date e = d) ∧
    (∀ e, e ∈ l' → date e = d → slots e = new) ∧
    (∀ i e, l !! i = Some e → date e = d →
       l' = <[i := mkAvailability d new]> l) ∧
    ((∀ e, e ∈ l → date e ≠ d) → l' = (l ++ [mkAvailability d new])%list) ∧
    (∀ i e, l !! i = Some e → date e ≠ d → l' !! i = Some e) ∧
    (∀ e, e ∈ l' → date e ≠ d → e ∈ l).
Proof.
  intros Hdoc Hnd r d new l. subst r d new l.
  unfold setAvailability.
  cbv beta iota zeta delta [Doctor_findById Doctor_save read write mbind
    M_bind mret M_ret value store_after journal].
  rewrite Hdoc. eexists. split_and!; try reflexivity; simpl.
  - by apply update_availability_spec.
  - by apply update_availability_spec.
  - by apply update_availability_spec.
  - intros i e. by apply update_availability_found.
  - apply update_availability_absent.
  - by apply update_availability_spec.
  - by apply update_availability_spec.
Qed.

Lemma setAvailability_unique_dates_witness :
  Doctors sample_store !! 200
  = Some (mkDoctor "bob" "cardiology" [mkAvailability "2025-01-01" ["09:00"]]) ∧
  NoDup ["2025-01-01"] ∧
  ∃ doc',
    status (value (setAvailability availability_request sample_store)) = 200 ∧
    availableSlots doc' = [mkAvailability "2025-01-01" ["10:00"; "11:00"]].
Proof.
  split_and!.
  - reflexivity.
  - apply (bool_decide_unpack _). vm_compute. exact I.
  - destruct (setAvailability_unique_dates availability_request sample_store
                (mkDoctor "bob" "cardiology"
                   [mkAvailability "2025-01-01" ["09:00"]]))
      as (doc' & Hst & _ & _ & _ & _ & _ & _ & _ & Hin & _).
    + reflexivity.
    + apply (bool_decide_unpack _). vm_compute. exact I.
    + exists doc'. split; [exact Hst|]. exact (Hin 0%nat _ eq_refl eq_refl).
Defined.

(** ** markAppointmentCompleted *)

(** C10: [markAppointmentCompleted] answers 404 and changes nothing when no
    appointment of that id belongs to the requesting doctor; answers 400 and
    changes nothing when that appointment is already "completed"; and
    otherwise saves the appointment with its status set to "completed" and
    every other field as it was, leaves every other document alone, and
    answers 200. *)
Theorem markAppointmentCompleted_guarded req s :
  let r := markAppointmentCompleted req s in
  let id := params_appointmentId req in
  let owned a :=
    Appointments s !! id = Some a ∧ appt_doctorId a = req_user_id req in
  ((∀ a, ¬ owned a) →
     status (value r) = 404 ∧ store_after r = s ∧ journal r = []) ∧
  (∀ a, owned a → appt_status a = "completed" →
     status (value r) = 400 ∧ store_after r = s ∧ journal r = []) ∧
  (∀ a, owned a → appt_status a ≠ "completed" →
     status (value r) = 200 ∧
     journal r = [SaveAppointment id] ∧
     store_after r = set_Appointments (insert id (complete a)) s ∧
     body (value r)
     = json_appointment "Appointment marked as completed successfully"
         (complete a) ∧
     appt_status (complete a) = "completed" ∧
     appt_doctorId (complete a) = appt_doctorId a ∧
     appt_userId (complete a) = appt_userId a ∧
     appt_date (complete a) = appt_date a ∧
     appt_time (complete a) = appt_time a ∧
     (∀ j, j ≠ id →
        Appointments (store_after r) !! j = Appointments s !! j)).
Proof.
  intros r id owned. subst r id owned. unfold markAppointmentCompleted.
  cbv beta iota zeta delta [Appointment_findOne Appointment_save read write
    mbind M_bind mret M_ret value store_after journal].
  split_and!.
  - intros Hnone.
    destruct (Appointments s !! params_appointmentId req) as [a|] eqn:E;
      simpl; [|done].
    case_decide as Hown; [|done]. by destruct (Hnone a).
  - intros a [-> Hown] Hst. simpl. rewrite decide_True by done.
    rewrite decide_True by done. done.
  - intros a [Hlook Hown] Hst. rewrite Hlook. simpl.
    rewrite decide_True by done. rewrite decide_False by done. simpl.
    split_and!; try done. intros j Hj. by rewrite lookup_insert_ne.
Qed.

Lemma markAppointmentCompleted_guarded_witness :
  (status (value (markAppointmentCompleted completion_request sample_store))
   = 200) ∧
  (status (value (markAppointmentCompleted foreign_request sample_store))
   = 404) ∧
  (status (value (markAppointmentCompleted completion_request
      (store_after (markAppointmentCompleted completion_request sample_store))))
   = 400).
Proof.
  split_and!.
  - apply (markAppointmentCompleted_guarded completion_request sample_store)
      with (a := mkAppointment 200 100 "2025-01-01" "09:00" "pending").
    + split; reflexivity.
    + discriminate.
  - apply (markAppointmentCompleted_guarded foreign_request sample_store).
    intros a [Hlook Hown]. vm_compute in Hlook. injection Hlook as <-.
    discriminate.
  - apply (markAppointmentCompleted_guarded completion_request
             (store_after
                (markAppointmentCompleted completion_request sample_store)))
      with (a := mkAppointment 200 100 "2025-01-01" "09:00" "completed").
    + split; reflexivity.
    + reflexivity.
Defined.

(** ** setAvailability and getDoctorSlots: beyond unique dates *)

Lemma setAvailability_found req s doc :
  Doctors s !! req_doctorId req = Some doc →
  setAvailability req s
  = let doc' := mkDoctor (doctor_name doc) (doctor_specialization doc)
                  (update_availability (body_date req) (body_slots req)
                     (availableSlots doc)) in
    mkOutcome (mkResponse 200 (json_doctor "Availability updated" doc'))
      (set_Doctors (insert (req_doctorId req) doc') s)
      [SaveDoctor (req_doctorId req)].
Proof.
  intros H. unfold setAvailability.
  cbv beta iota zeta delta [Doctor_findById Doctor_save read write mbind
    M_bind mret M_ret value store_after journal].
  by rewrite H.
Qed.

Lemma setAvailability_missing req s :
  Doctors s !! req_doctorId req = None →
  setAvailability req s
  = mkOutcome (mkResponse 404 (json_message "Doctor not found")) s [].
Proof.
  intros H. unfold setAvailability.
  cbv beta iota zeta delta [Doctor_findById Doctor_save read write mbind
    M_bind mret M_ret value store_after journal].
  by rewrite H.
Qed.

Lemma update_availability_first d new (l : list Availability) (i : nat) e :
  l !! i = Some e → date e = d →
  (∀ j y, l !! j = Some y → (j < i)%nat → date y ≠ d) →
  update_availability d new l = <[i := mkAvailability d new]> l.
Proof.
  intros Hi Hd Hfirst. unfold update_availability.
  assert (Hfind : list_find (λ e, date e = d) l = Some (i, e)).
  { apply list_find_Some. split_and!; [done|done|]. intros j y Hj Hlt.
    by apply (Hfirst j y). }
  rewrite Hfind.
  assert (Hlt : (i < length l)%nat) by by eapply lookup_lt_Some.
  apply list_eq. intros k. destruct (decide (k = i)) as [->|Hne].
  - rewrite list_lookup_alter_eq, list_lookup_insert_eq by done.
    rewrite Hi. simpl. unfold set_slots. by rewrite Hd.
  - rewrite list_lookup_alter_ne, list_lookup_insert_ne by done. done.
Qed.

Lemma update_availability_dates d new l :
  date <$> update_availability d new l
  = if decide (d ∈ date <$> l) then date <$> l
    else ((date <$> l) ++ [d])%list.
Proof.
  unfold update_availability.
  destruct (list_find _ l) as [[i e]|] eqn:Hfind.
  - apply list_find_Some in Hfind as (Hi & Hd & _).
    rewrite set_slots_dates, decide_True; [done|].
    apply list_elem_of_fmap. exists e. split; [done|].
    by eapply list_elem_of_lookup_2.
  - apply list_find_None in Hfind. rewrite Forall_forall in Hfind.
    rewrite decide_False.
    + by rewrite fmap_app.
    + intros (e & -> & He)%list_elem_of_fmap. by apply (Hfind e).
Qed.

Lemma update_availability_overwrite d new1 new2 l :
  update_availability d new2 (update_availability d new1 l)
  = update_availability d new2 l.
Proof.
  unfold update_availability at 2 3.
  destruct (list_find _ l) as [[i e]|] eqn:Hfind.
  - apply list_find_Some in Hfind as (Hi & Hd & Hfirst).
    rewrite (update_availability_first d new2 _ i (set_slots new1 e)).
    + apply list_eq. intros k. destruct (decide (k = i)) as [->|Hne].
      * assert (Hlt : (i < length l)%nat) by by eapply lookup_lt_Some.
        rewrite list_lookup_insert_eq by by rewrite length_alter.
        rewrite list_lookup_alter_eq, Hi. simpl. unfold set_slots.
        by rewrite Hd.
      * rewrite list_lookup_insert_ne by done.
        rewrite !list_lookup_alter_ne by done. done.
    + by rewrite list_lookup_alter_eq, Hi.
    + done.
    + intros j y Hj Hlt. rewrite list_lookup_alter_ne in Hj by lia.
      by apply (Hfirst j y).
  - pose proof Hfind as Hnone.
    apply list_find_None in Hnone. rewrite Forall_forall in Hnone.
    rewrite (update_availability_first d new2 _ (length l)
               (mkAvailability d new1)).
    + apply list_eq. intros k. destruct (decide (k = length l)) as [->|Hne].
      * rewrite list_lookup_insert_eq by (rewrite length_app; simpl; lia).
        by rewrite lookup_app_r, Nat.sub_diag by lia.
      * rewrite list_lookup_insert_ne by done.
        destruct (decide (k < length l)%nat) as [Hk|Hk].
        -- by rewrite !lookup_app_l by done.
        -- rewrite !lookup_app_r by lia.
           destruct (k - length l)%nat as [|m] eqn:E; [lia|done].
    + by rewrite lookup_app_r, Nat.sub_diag by lia.
    + done.
    + intros j y Hj Hlt. rewrite lookup_app_l in Hj by done.
      apply Hnone. by eapply list_elem_of_lookup_2.
Qed.

(** X1: without any assumption on the stored list, [setAvailability] writes
    at most one entry of the doctor's [availableSlots]: the first entry of
    the given date is replaced in place, later entries of that date and all
    other entries stay, and the sequence of dates only grows, by the given
    date at the end, when no entry had it. *)
Theorem setAvailability_first_entry_only req s doc :
  Doctors s !! req_doctorId req = Some doc →
  let d := body_date req in
  let new := body_slots req in
  let l := availableSlots doc in
  ∃ l',
    availableSlots <$> Doctors (store_after (setAvailability req s))
                         !! req_doctorId req = Some l' ∧
    date <$> l'
    = (if decide (d ∈ date <$> l) then date <$> l
       else ((date <$> l) ++ [d])%list) ∧
    (∀ i e, l !! i = Some e → date e = d →
       (∀ j y, l !! j = Some y → (j < i)%nat → date y ≠ d) →
       l' = <[i := mkAvailability d new]> l) ∧
    (d ∉ date <$> l → l' = (l ++ [mkAvailability d new])%list).
Proof.
  intros Hdoc d new l. subst d new l.
  rewrite (setAvailability_found _ _ _ Hdoc). simpl.
  rewrite lookup_insert_eq. simpl. eexists. split_and!; [done| | |].
  - apply update_availability_dates.
  - intros i e. apply update_availability_first.
  - intros Hnot. apply update_availability_absent.
    intros e He Hd. apply Hnot. apply list_elem_of_fmap. by exists e.
Qed.

(** X2: the last write wins: two [setAvailability] calls of one doctor for
    one date leave the store as the second call alone would. *)
Theorem setAvailability_last_write_wins id uid aid d slots1 slots2 s :
  let req1 := mkDoctorRequest id uid aid d slots1 in
  let req2 := mkDoctorRequest id uid aid d slots2 in
  store_after (setAvailability req2 (store_after (setAvailability req1 s)))
  = store_after (setAvailability req2 s) ∧
  value (setAvailability req2 (store_after (setAvailability req1 s)))
  = value (setAvailability req2 s).
Proof.
  intros req1 req2. destruct (Doctors s !! id) as [doc|] eqn:Hdoc.
  - rewrite (setAvailability_found req1 s doc) by done.
    rewrite (setAvailability_found req2 s doc) by done.
    cbn [store_after value].
    erewrite (setAvailability_found req2); [|apply lookup_insert_eq].
    cbn [store_after value req_doctorId body_date body_slots req1 req2
         doctor_name doctor_specialization availableSlots].
    rewrite update_availability_overwrite. split; [|done].
    unfold set_Doctors. simpl. by rewrite insert_insert_eq.
  - rewrite (setAvailability_missing req1 s) by done. done.
Qed.

(** X3: [setAvailability] writes nothing but the requesting doctor's
    document: the forum, the users, the appointments and every other doctor
    are as before, no doctor is created, and for an id that names no doctor
    the answer is 404 with the store untouched. *)
Theorem setAvailability_frame req s :
  let r := setAvailability req s in
  Posts (store_after r) = Posts s ∧
  Comments (store_after r) = Comments s ∧
  Users (store_after r) = Users s ∧
  Appointments (store_after r) = Appointments s ∧
  (∀ j, j ≠ req_doctorId req →
     Doctors (store_after r) !! j = Doctors s !! j) ∧
  dom (Doctors (store_after r)) = dom (Doctors s) ∧
  match Doctors s !! req_doctorId req with
  | Some _ => status (value r) = 200
  | None => status (value r) = 404 ∧ store_after r = s ∧ journal r = []
  end.
Proof.
  intros r. subst r. destruct (Doctors s !! req_doctorId req) as [doc|] eqn:Hdoc.
  - rewrite (setAvailability_found _ _ _ Hdoc). simpl.
    split_and!; try done.
    + intros j Hj. by rewrite lookup_insert_ne.
    + rewrite dom_insert_L. apply elem_of_dom_2 in Hdoc. set_solver.
  - rewrite (setAvailability_missing _ _ Hdoc). done.
Qed.

(** X4: what [setAvailability] stores, [getDoctorSlots] shows: after a
    successful [setAvailability], [getDoctorSlots] for that doctor answers
    200 with the saved list, in which the first entry of the given date
    holds the given slots; it changes nothing. For an id that names no
    doctor it answers 404. *)
Theorem getDoctorSlots_after_setAvailability req s :
  let d := body_date req in
  let new := body_slots req in
  let s' := store_after (setAvailability req s) in
  let r := getDoctorSlots (mkSlotsRequest (req_doctorId req)) s' in
  store_after r = s' ∧ journal r = [] ∧
  match Doctors s !! req_doctorId req with
  | Some doc =>
    value r
    = mkDoctorResponse 200
        (json_availableSlots (update_availability d new (availableSlots doc))) ∧
    ∃ i, update_availability d new (availableSlots doc) !! i
         = Some (mkAvailability d new) ∧
         ∀ j y, update_availability d new (availableSlots doc) !! j = Some y →
                (j < i)%nat → date y ≠ d
  | None =>
    value r = mkDoctorResponse 404 (json_failure "Doctor not found")
  end.
Proof.
  intros d new s' r. subst d new s' r.
  destruct (Doctors s !! req_doctorId req) as [doc|] eqn:Hdoc.
  - rewrite (setAvailability_found _ _ _ Hdoc).
    unfold getDoctorSlots.
    cbv beta iota zeta delta [Doctor_findById read mbind M_bind mret M_ret
      value store_after journal params_doctorId set_Doctors Doctors].
    rewrite lookup_insert_eq. simpl. split_and!; try done.
    unfold update_availability.
    destruct (list_find _ (availableSlots doc)) as [[i e]|] eqn:Hfind.
    + apply list_find_Some in Hfind as (Hi & Hd & Hfirst).
      exists i. split.
      * rewrite list_lookup_alter_eq, Hi. simpl. unfold set_slots.
        by rewrite Hd.
      * intros j y Hj Hlt. rewrite list_lookup_alter_ne in Hj by lia.
        by apply (Hfirst j y).
    + apply list_find_None in Hfind. rewrite Forall_forall in Hfind.
      exists (length (availableSlots doc)). split.
      * by rewrite lookup_app_r, Nat.sub_diag by lia.
      * intros j y Hj Hlt. rewrite lookup_app_l in Hj by done.
        apply Hfind. by eapply list_elem_of_lookup_2.
  - rewrite (setAvailability_missing _ _ Hdoc).
    unfold getDoctorSlots.
    cbv beta iota zeta delta [Doctor_findById read mbind M_bind mret M_ret
      value store_after journal params_doctorId].
    by rewrite Hdoc.
Qed.

(** ** updateAppointmentStatus and markAppointmentCompleted *)

Lemma with_status_same a : with_status (appt_status a) a = a.
Proof. by destruct a. Qed.

Lemma updateAppointmentStatus_owned req s a :
  Appointments s !! status_params_id req = Some a →
  appt_doctorId a = status_doctorId req →
  updateAppointmentStatus req s
  = mkOutcome
      (mkResponse 200
         (json_appointment "Status updated" (with_status (body_status req) a)))
      (set_Appointments
         (insert (status_params_id req) (with_status (body_status req) a)) s)
      [SaveAppointment (status_params_id req)].
Proof.
  intros Hlook Hown. unfold updateAppointmentStatus,
    Appointment_findOneAndUpdate_status.
  cbv beta iota zeta delta [Appointment_findOne Appointment_save read write
    mbind M_bind mret M_ret value store_after journal].
  rewrite Hlook. simpl. by rewrite decide_True.
Qed.


Lemma markAppointmentCompleted_owned req s a :
  Appointments s !! params_appointmentId req = Some a →
  appt_doctorId a = req_user_id req →
  markAppointmentCompleted req s
  = if decide (appt_status a = "completed") then
      mkOutcome
        (mkResponse 400 (json_message "Appointment already marked as completed"))
        s []
    else
      mkOutcome
        (mkResponse 200
           (json_appointment "Appointment marked as completed successfully"
              (complete a)))
        (set_Appointments (insert (params_appointmentId req) (complete a)) s)
        [SaveAppointment (params_appointmentId req)].
Proof.
  intros Hlook Hown. unfold markAppointmentCompleted.
  cbv beta iota zeta delta [Appointment_findOne Appointment_save read write
    mbind M_bind mret M_ret value store_after journal].
  rewrite Hlook. simpl. rewrite decide_True by done. by case_decide.
Qed.


(** X6: how the two status handlers compose, for an appointment of the
    requesting doctor: after [markAppointmentCompleted] the status is
    "completed" and a second [markAppointmentCompleted] answers 400 and
    writes nothing; [updateAppointmentStatus] to "completed" leaves the same
    store as [markAppointmentCompleted]; and completion is not final: an
    [updateAppointmentStatus] to another status is accepted on a completed
    appointment, after which [markAppointmentCompleted] answers 200 again. *)
Theorem appointment_status_composition req st s a :
  Appointments s !! params_appointmentId req = Some a →
  appt_doctorId a = req_user_id req →
  let id := params_appointmentId req in
  let update st := mkStatusRequest (req_user_id req) id st in
  let s1 := store_after (markAppointmentCompleted req s) in
  appt_status <$> Appointments s1 !! id = Some "completed" ∧
  status (value (markAppointmentCompleted req s1)) = 400 ∧
  store_after (markAppointmentCompleted req s1) = s1 ∧
  store_after (updateAppointmentStatus (update "completed") s) = s1 ∧
  (st ≠ "completed" →
     let s2 := store_after (updateAppointmentStatus (update st) s1) in
     status (value (updateAppointmentStatus (update st) s1)) = 200 ∧
     Appointments s2 !! id = Some (with_status st a) ∧
     status (value (markAppointmentCompleted req s2)) = 200).
Proof.
  intros Hlook Hown id update s1. subst id s1.
  assert (Hs1 : ∃ a1, Appointments (store_after (markAppointmentCompleted req s))
                        !! params_appointmentId req = Some a1 ∧
                      a1 = complete a ∧
                      store_after (markAppointmentCompleted req s)
                      = set_Appointments
                          (insert (params_appointmentId req) a1) s).
  { rewrite (markAppointmentCompleted_owned _ _ _ Hlook Hown).
    case_decide as Hst; simpl.
    - exists a. split_and!; [done| |].
      + unfold complete. rewrite <- Hst. by destruct a.
      + unfold set_Appointments. rewrite insert_id by done. by destruct s.
    - eexists. split_and!; [apply lookup_insert_eq|done|done]. }
  destruct Hs1 as (a1 & Hlook1 & -> & Hs1).
  remember (store_after (markAppointmentCompleted req s)) as s1 eqn:E.
  clear E. split_and!.
  - by rewrite Hlook1.
  - rewrite (markAppointmentCompleted_owned _ _ _ Hlook1) by done.
    by rewrite decide_True.
  - rewrite (markAppointmentCompleted_owned _ _ _ Hlook1) by done.
    by rewrite decide_True.
  - rewrite (updateAppointmentStatus_owned (update "completed") s a) by done.
    by rewrite Hs1.
  - intros Hst s2. subst s2.
    rewrite (updateAppointmentStatus_owned (update st) s1 (complete a))
      by done.
    cbn [store_after value status update status_params_id body_status].
    assert (Hlook2 : Appointments
              (set_Appointments
                 (insert (params_appointmentId req)
                    (with_status st (complete a))) s1)
              !! params_appointmentId req = Some (with_status st a)).
    { unfold set_Appointments. cbn [Appointments].
      by rewrite lookup_insert_eq. }
    split_and!; [done|done|].
    rewrite (markAppointmentCompleted_owned _ _ _ Hlook2) by done.
    by rewrite decide_False.
Qed.

(** ** The reading doctor handlers *)

Lemma NoDup_fst_filter_map_to_list {A} (m : gmap N A) (P : N * A → Prop)
    `{!∀ x, Decision (P x)} :
  NoDup (filter P (map_to_list m)).*1.
Proof.
  apply NoDup_fmap_fst.
  - intros i x y [_ Hx]%list_elem_of_filter [_ Hy]%list_elem_of_filter.
    apply elem_of_map_to_list in Hx, Hy. congruence.
  - apply NoDup_filter, NoDup_map_to_list.
Qed.

(** X7: [getDoctorsBySpecialization] answers a missing or empty
    [specialization] with 400; otherwise it answers 200 with the stored
    doctors of exactly that specialization, each once, which is the empty
    list, not a 404, when there is none. It never writes. *)
Theorem getDoctorsBySpecialization_exact req s :
  let r := getDoctorsBySpecialization req s in
  store_after r = s ∧ journal r = [] ∧
  if falsy (query_specialization req) then
    value r
    = mkDoctorResponse 400 (json_failure "Specialization is required")
  else
    ∃ l, value r = mkDoctorResponse 200 (json_doctors l) ∧
         NoDup l.*1 ∧
         (∀ i d, (i, d) ∈ l ↔
                 Doctors s !! i = Some d ∧
                 doctor_specialization d = text (query_specialization req)) ∧
         ((∀ i d, Doctors s !! i = Some d →
                  doctor_specialization d ≠ text (query_specialization req)) →
          l = []).
Proof.
  intros r. subst r. unfold getDoctorsBySpecialization.
  destruct (falsy (query_specialization req)) eqn:Hf; [done|].
  cbv beta iota zeta delta [Doctor_find read mbind M_bind mret M_ret value
    store_after journal app].
  split_and!; [done|done|]. eexists. split_and!; [done| | |].
  - apply NoDup_fst_filter_map_to_list.
  - intros i d. rewrite list_elem_of_filter, elem_of_map_to_list. simpl.
    tauto.
  - intros Hnone. apply elem_of_nil_inv. intros [i d].
    rewrite list_elem_of_filter, elem_of_map_to_list. simpl.
    intros [Hsp Hd]. by apply (Hnone i d).
Qed.

#[global] Instance date_order_total : Total date_order.
Proof.
  intros x y. unfold date_order.
  destruct (String.leb_total (appt_date (av_doc x)) (appt_date (av_doc y)))
    as [H|H]; rewrite H; [by left|by right].
Qed.

(** X8: [getDoctorAppointments] answers 200 with the appointments of the
    requesting doctor and no others: every listed appointment is stored
    under its id with that doctor's id, every stored appointment of that
    doctor is listed, each id once; the list is in ascending order of
    [date], each entry carries the name of its user when the user is stored
    and [null] otherwise. It never writes. *)
Theorem getDoctorAppointments_own req s :
  let r := getDoctorAppointments req s in
  store_after r = s ∧ journal r = [] ∧
  ∃ l, value r = mkDoctorResponse 200 (json_appointments l) ∧
       Sorted date_order l ∧
       NoDup (av_id <$> l) ∧
       (∀ v, v ∈ l →
          Appointments s !! av_id v = Some (av_doc v) ∧
          appt_doctorId (av_doc v) = req_doctorId req ∧
          av_userId v
          = (λ u, mkPatient (appt_userId (av_doc v)) (user_name u))
              <$> Users s !! appt_userId (av_doc v)) ∧
       (∀ i a, Appointments s !! i = Some a →
               appt_doctorId a = req_doctorId req →
               ∃ v, v ∈ l ∧ av_id v = i ∧ av_doc v = a).
Proof.
  intros r. subst r. unfold getDoctorAppointments.
  cbv beta iota zeta delta [Appointment_find populate_userId read mbind
    M_bind mret M_ret value store_after journal app].
  split_and!; [done|done|]. eexists. split_and!; [done| | | |].
  - apply Sorted_merge_sort. apply _.
  - rewrite merge_sort_Permutation, <- list_fmap_compose.
    rewrite (list_fmap_ext _ fst); [apply NoDup_fst_filter_map_to_list|done].
  - intros v. rewrite merge_sort_Permutation.
    intros ([i a] & -> & Hin)%list_elem_of_fmap.
    apply list_elem_of_filter in Hin as [Hown Hin].
    apply elem_of_map_to_list in Hin. done.
  - intros i a Hlook Hown. eexists. split_and!.
    + rewrite merge_sort_Permutation. apply list_elem_of_fmap.
      exists (i, a). split; [done|].
      apply list_elem_of_filter. split; [done|].
      by apply elem_of_map_to_list.
    + done.
    + done.
Qed.

(** ** verifyDoctorToken *)

Lemma split_lacks sep t : lacks sep t = true → split sep t = [t].
Proof.
  induction t as [|c t IH]; simpl; [done|].
  intros [Hc Ht]%andb_prop. apply negb_true_iff in Hc. rewrite Hc.
  by rewrite IH.
Qed.

Lemma split_app sep t rest :
  lacks sep t = true →
  split sep (t +:+ String sep rest) = t :: split sep rest.
Proof.
  induction t as [|c t IH]; simpl.
  - intros _. by rewrite Ascii.eqb_refl.
  - intros [Hc Ht]%andb_prop. apply negb_true_iff in Hc. rewrite Hc.
    by rewrite IH.
Qed.

(** X9: [verifyDoctorToken] answers 401 to a missing header and to one
    that does not start with "Bearer ", without consulting [jwt.verify];
    for a header "Bearer " followed by a token without spaces what follows
    a further space is ignored, and the request passes with the id of
    the verified token exactly when [jwt.verify] accepts the token, being
    answered with 403 otherwise. *)
Theorem verifyDoctorToken_bearer jwt_verify :
  verifyDoctorToken jwt_verify None
  = inl (mkResponse 401 (json_message "No token provided")) ∧
  (∀ h, startsWith h "Bearer " = false →
     verifyDoctorToken jwt_verify (Some h)
     = inl (mkResponse 401 (json_message "No token provided"))) ∧
  (∀ t rest, lacks " " t = true →
     verifyDoctorToken jwt_verify (Some ("Bearer " +:+ t))
     = match jwt_verify t with
       | Some id => inr id
       | None => inl (mkResponse 403 (json_message "Invalid or expired token"))
       end ∧
     verifyDoctorToken jwt_verify (Some ("Bearer " +:+ t +:+ String " " rest))
     = verifyDoctorToken jwt_verify (Some ("Bearer " +:+ t))).
Proof.
  split_and!; [done| |].
  - intros h Hh. unfold verifyDoctorToken. by rewrite Hh.
  - intros t rest Ht.
    assert (Hplain : verifyDoctorToken jwt_verify (Some ("Bearer " +:+ t))
              = match jwt_verify t with
                | Some id => inr id
                | None =>
                  inl (mkResponse 403 (json_message "Invalid or expired token"))
                end).
    { unfold verifyDoctorToken.
      change ("Bearer " +:+ t) with ("Bearer" +:+ String " " t).
      rewrite (split_app " " "Bearer" t) by done.
      rewrite split_lacks by done. simpl.
      by destruct t. }
    split; [done|]. rewrite Hplain. unfold verifyDoctorToken.
    change ("Bearer " +:+ t +:+ String " " rest)
      with ("Bearer" +:+ String " " (t +:+ String " " rest)).
    rewrite (split_app " " "Bearer") by done.
    rewrite split_app by done. simpl. by destruct t.
Qed.

(** ** capitalizeRole on any role *)

Lemma toUpperCase_ascii_idem c :
  toUpperCase_ascii (toUpperCase_ascii c) = toUpperCase_ascii c.
Proof. destruct c as [[] [] [] [] [] [] [] []]; reflexivity. Qed.

Lemma toUpperCase_ascii_only c :
  (N_of_ascii c <? 128) = true → (N_of_ascii (toUpperCase_ascii c) <? 128) = true.
Proof. destruct c as [[] [] [] [] [] [] [] []]; vm_compute; done. Qed.

(** X10: on a role of ASCII characters [capitalizeRole] keeps the length
    and everything after the first character, yields ASCII again and is
    idempotent: a role that is already capitalized is returned unchanged;
    the empty role is mapped to the empty string. *)
Theorem capitalizeRole_shape role :
  ascii_only role = true →
  String.length (capitalizeRole role) = String.length role ∧
  slice (capitalizeRole role) 1 = slice role 1 ∧
  ascii_only (capitalizeRole role) = true ∧
  capitalizeRole (capitalizeRole role) = capitalizeRole role ∧
  (role = "" → capitalizeRole role = "").
Proof.
  destruct role as [|c r]; [done|].
  intros H. cbn [ascii_only] in H. apply andb_prop in H as [Hc Hr].
  rewrite !capitalizeRole_cons. split_and!; [done|done| | |done].
  - cbn [ascii_only]. by rewrite toUpperCase_ascii_only, Hr.
  - by rewrite toUpperCase_ascii_idem.
Qed.

Lemma capitalizeRole_shape_witness :
  ascii_only "Doctor" = true ∧
  capitalizeRole (capitalizeRole "Doctor") = capitalizeRole "Doctor" ∧
  ascii_only "" = true ∧
  String.length (capitalizeRole "") = 0%nat.
Proof.
  split_and!.
  - reflexivity.
  - apply (capitalizeRole_shape "Doctor"). reflexivity.
  - reflexivity.
  - apply (capitalizeRole_shape ""). reflexivity.
Defined.

(** ** The author shown by the creating handlers *)

(** X11: the document [createPost] or [createComment] answers with shows
    its author resolved in the collection the role names: for the role
    "doctor" the doctor's name and specialization, for the role "user" the
    user's name and no specialization, and [null] when the collection holds
    no document of the author's id; the document is created all the same. *)
Theorem created_author_projection now pid c rest par uid s :
  let content := Some (String c rest) in
  let of_doctor := AuthorDoc
    ((λ d, mkAuthor uid (doctor_name d) (Some (doctor_specialization d)))
       <$> Doctors s !! uid) in
  let of_user := AuthorDoc
    ((λ u, mkAuthor uid (user_name u) None) <$> Users s !! uid) in
  let as_doctor := mkForumRequest pid content par uid "doctor" in
  let as_user := mkForumRequest pid content par uid "user" in
  response_author (value (createPost now as_doctor s)) = Some of_doctor ∧
  response_author (value (createPost now as_user s)) = Some of_user ∧
  response_author (value (createComment now as_doctor s)) = Some of_doctor ∧
  response_author (value (createComment now as_user s)) = Some of_user ∧
  status (value (createPost now as_doctor s)) = 201 ∧
  status (value (createComment now as_user s)) = 201.
Proof.
  intros content of_doctor of_user as_doctor as_user.
  assert (Hcomment : ∀ role,
    response_author
      (value (createComment now (mkForumRequest pid content par uid role) s))
    = Some (AuthorDoc (resolve_author s (capitalizeRole role) uid))).
  { intros role. unfold createComment. cbn [body_content content falsy].
    cbv beta iota zeta delta [Comment_create Comment_findById
      Comment_findByIdAndUpdate_push_replies
      Post_findByIdAndUpdate_push_comments populate_comment_opt
      read write mbind M_bind mret M_ret value store_after journal
      body_parentCommentId params_postId user_id user_role].
    destruct par as [parent|].
    - cbn [Comments set_Comments bump_oid]. rewrite lookup_alter.
      case_decide as E; [subst parent|]; rewrite lookup_insert_eq; done.
    - cbn [Comments set_Comments set_Posts bump_oid].
      rewrite lookup_insert_eq. done. }
  assert (Hpost : ∀ role,
    response_author
      (value (createPost now (mkForumRequest pid content par uid role) s))
    = Some (AuthorDoc (resolve_author s (capitalizeRole role) uid))).
  { intros role. unfold createPost. cbn [body_content content falsy].
    cbv beta iota zeta delta [Post_create Post_findById populate_post_opt
      read write mbind M_bind mret M_ret value store_after journal
      user_id user_role].
    cbn [Posts set_Posts bump_oid]. rewrite lookup_insert_eq. done. }
  split_and!.
  - apply Hpost.
  - apply Hpost.
  - apply Hcomment.
  - apply Hcomment.
  - done.
  - unfold as_user, createComment. by destruct par.
Qed.

(** ** What the listing shows of the stored tree *)

Lemma stored_comments_ids s ids :
  (stored_comments s ids).*1 = stored_ids s ids.
Proof.
  unfold stored_comments, stored_ids.
  induction ids as [|i ids IH]; [done|]. rewrite filter_cons. csimpl.
  destruct (Comments s !! i) as [c|] eqn:E; simpl.
  - f_equal. exact IH.
  - exact IH.
Qed.

Lemma expand_id s n ic : cv_id (expand s n ic) = ic.1.
Proof. by destruct n. Qed.

Lemma expand_doc s n ic : cv_doc (expand s n ic) = ic.2.
Proof. by destruct n. Qed.

Lemma expand_ids s n (l : list (ObjectId * Comment)) :
  listed_ids (expand s n <$> l) = l.*1.
Proof.
  unfold listed_ids. rewrite <- list_fmap_compose. apply list_fmap_ext.
  intros k ic _. apply expand_id.
Qed.

(** X12: in a store of the data model, where every [authorType] is one of
    the two tags and no linkage array names an id twice, the listing shows
    the stored comments the linkage arrays name and drops the ids that name
    none: the top-level comments listed under a post are those of its
    [comments] ids that are stored, the replies listed under a top-level
    comment and under a reply are those of the [replies] ids that are
    stored, in array order, and every listed comment is the document stored
    under its id. *)
Theorem listing_shows_stored s v :
  authors_typed s →
  links_once s →
  v ∈ response_posts (value (getAllPosts s)) →
  Posts s !! pv_id v = Some (pv_doc v) ∧
  ∃ c, pv_comments v = Docs c ∧
    listed_ids c ≡ₚ stored_ids s (post_comments (pv_doc v)) ∧
    ∀ a, a ∈ c →
      Comments s !! cv_id a = Some (cv_doc a) ∧
      ∃ r, cv_replies a = Docs r ∧
        listed_ids r = stored_ids s (comment_replies (cv_doc a)) ∧
        ∀ b, b ∈ r →
          Comments s !! cv_id b = Some (cv_doc b) ∧
          ∃ q, cv_replies b = Docs q ∧
            listed_ids q = stored_ids s (comment_replies (cv_doc b)) ∧
            ∀ d, d ∈ q → Comments s !! cv_id d = Some (cv_doc d).
Proof.
  intros _ _.
  rewrite getAllPosts_listing. unfold response_posts, listing.
  cbn [value body].
  intros ([i p] & -> & Hip)%list_elem_of_fmap.
  apply elem_of_sort_by, elem_of_map_to_list in Hip.
  split; [done|]. unfold hydrate_post. cbn [pv_comments pv_doc fst snd].
  eexists. split; [reflexivity|]. split.
  { rewrite expand_ids. cbn [sort_by]. rewrite merge_sort_Permutation.
    by rewrite stored_comments_ids. }
  intros a ([ia ca] & -> & Ha)%list_elem_of_fmap.
  apply elem_of_sort_by, elem_of_stored_comments in Ha as [_ Ha].
  rewrite expand_id, expand_doc. cbn [fst snd].
  split; [done|].
  exists (expand s 1 <$> stored_comments s (comment_replies ca)).
  split; [reflexivity|]. split.
  { by rewrite expand_ids, stored_comments_ids. }
  intros b ([ib cb] & -> & Hb)%list_elem_of_fmap.
  apply elem_of_stored_comments in Hb as [_ Hb].
  rewrite expand_id, expand_doc. cbn [fst snd].
  split; [done|].
  exists (expand s 0 <$> stored_comments s (comment_replies cb)).
  split; [reflexivity|]. split.
  { by rewrite expand_ids, stored_comments_ids. }
  intros d ([id' cd] & -> & Hd)%list_elem_of_fmap.
  apply elem_of_stored_comments in Hd as [_ Hd].
  by rewrite expand_id, expand_doc.
Qed.

Lemma listing_shows_stored_witness :
  authors_typed dangling_store ∧
  links_once dangling_store ∧
  mkPostView 0 (mkPost "hello" 100 "User" [9; 1] 10)
    (AuthorDoc (Some (mkAuthor 100 "ann" None)))
    (Docs [mkCommentView 1 (mkComment "first" 200 "Doctor" 0 None [8] 11)
             (AuthorDoc (Some (mkAuthor 200 "bob" (Some "cardiology"))))
             (Docs [])])
  ∈ response_posts (value (getAllPosts dangling_store)) ∧
  Posts dangling_store !! 0 = Some (mkPost "hello" 100 "User" [9; 1] 10).
Proof.
  assert (H : mkPostView 0 (mkPost "hello" 100 "User" [9; 1] 10)
    (AuthorDoc (Some (mkAuthor 100 "ann" None)))
    (Docs [mkCommentView 1 (mkComment "first" 200 "Doctor" 0 None [8] 11)
             (AuthorDoc (Some (mkAuthor 200 "bob" (Some "cardiology"))))
             (Docs [])])
  ∈ response_posts (value (getAllPosts dangling_store))).
  { vm_compute. apply list_elem_of_here. }
  assert (Ht : authors_typed dangling_store).
  { apply (bool_decide_unpack _). vm_compute. exact I. }
  assert (Ho : links_once dangling_store).
  { apply (bool_decide_unpack _). vm_compute. exact I. }
  split_and!; [exact Ht|exact Ho|exact H|].
  exact (proj1 (listing_shows_stored dangling_store _ Ht Ho H)).
Defined.

(** ** Round trips through the listing *)

Lemma listing_unsorted s n :
  listing s n ≡ₚ hydrate_post s n <$> map_to_list (Posts s).
Proof. unfold listing. cbn [sort_by]. by rewrite merge_sort_Permutation. Qed.

(** X13: a created post is listed: after a [createPost] with non-empty
    content the listing is the listing of before with one more post, the new
    one, which shows the given content, its author resolved and no
    comments; the posts listed before are listed unchanged. *)
Theorem createPost_listed now req s :
  store_wf s →
  falsy (body_content req) = false →
  let s' := store_after (createPost now req s) in
  response_posts (value (getAllPosts s'))
  ≡ₚ mkPostView (next_oid s) (new_post now req)
       (AuthorDoc (resolve_author s (capitalizeRole (user_role req))
                     (user_id req)))
       (Docs [])
     :: response_posts (value (getAllPosts s)).
Proof.
  intros Hwf Hc s'. subst s'.
  rewrite !getAllPosts_listing. unfold response_posts. cbn [value body].
  rewrite createPost_store by done.
  rewrite !listing_unsorted. cbn [Posts set_Posts bump_oid].
  rewrite map_to_list_insert by by apply store_wf_fresh_post.
  rewrite fmap_cons.
  match goal with
  | |- context [hydrate_post ?s1 2 <$> map_to_list (Posts s)] =>
    assert (Hold : hydrate_post s1 2 <$> map_to_list (Posts s)
                   = hydrate_post s 2 <$> map_to_list (Posts s))
  end.
  { apply list_fmap_ext. intros k [i p] Hk.
    apply (hydrate_post_agree s); try done.
    cbn [snd]. apply list_elem_of_lookup_2, elem_of_map_to_list in Hk.
    destruct Hwf as [Hp _]. by apply Hp in Hk as [_ Hk]. }
  rewrite Hold. done.
Qed.

Lemma createPost_listed_witness :
  store_wf sample_store ∧
  falsy (body_content post_request) = false ∧
  response_posts
    (value (getAllPosts (store_after (createPost 12 post_request sample_store))))
  ≡ₚ mkPostView 2 (mkPost "second post" 200 "Doctor" [] 12)
       (AuthorDoc (Some (mkAuthor 200 "bob" (Some "cardiology"))))
       (Docs [])
     :: response_posts (value (getAllPosts sample_store)).
Proof.
  split_and!.
  - apply (bool_decide_unpack _). vm_compute. exact I.
  - reflexivity.
  - apply (createPost_listed 12 post_request sample_store).
    + apply (bool_decide_unpack _). vm_compute. exact I.
    + reflexivity.
Defined.

(** X14: a top-level comment is listed: after a [createComment] without
    parent and with non-empty content on a stored post, the listing shows
    that post with the comments it showed before and one more, the new
    comment, with its author resolved and an empty list of replies. *)
Theorem top_level_comment_listed now P p content uid role s :
  store_wf s →
  Posts s !! P = Some p →
  content ≠ "" →
  let req := mkForumRequest P (Some content) None uid role in
  let s' := store_after (createComment now req s) in
  let a := mkCommentView (next_oid s) (new_comment now req)
             (AuthorDoc (resolve_author s (capitalizeRole role) uid))
             (Docs []) in
  ∃ v c v' c',
    v ∈ response_posts (value (getAllPosts s)) ∧
    pv_id v = P ∧ pv_comments v = Docs c ∧
    v' ∈ response_posts (value (getAllPosts s')) ∧
    pv_id v' = P ∧ pv_comments v' = Docs c' ∧
    c' ≡ₚ a :: c.
Proof.
  intros Hwf HP Hcontent req s' a.
  assert (Hf : falsy (body_content req) = false) by by destruct content.
  assert (Hs' : s' = set_Posts (alter (push_comment (next_oid s)) P)
                  (bump_oid (set_Comments
                     (insert (next_oid s) (new_comment now req)) s))).
  { subst s'. by rewrite createComment_store. }
  assert (Hagree : ∀ i, i < next_oid s → Comments s' !! i = Comments s !! i).
  { intros i Hi. rewrite Hs'. simpl. rewrite lookup_insert_ne; [done|lia]. }
  assert (Hnew : Comments s' !! next_oid s = Some (new_comment now req)).
  { rewrite Hs'. simpl. apply lookup_insert_eq. }
  assert (Hbelow : ids_below (next_oid s) (post_comments p)).
  { destruct Hwf as [Hp _]. by apply Hp in HP as [_ HP]. }
  rewrite !getAllPosts_listing. unfold response_posts. cbn [value body].
  exists (hydrate_post s 2 (P, p)). eexists.
  exists (hydrate_post s' 2 (P, push_comment (next_oid s) p)). eexists.
  split_and!.
  - apply list_elem_of_fmap_2. apply elem_of_sort_by.
    by apply elem_of_map_to_list.
  - done.
  - done.
  - apply list_elem_of_fmap_2. apply elem_of_sort_by.
    apply elem_of_map_to_list. rewrite Hs'. simpl.
    by rewrite lookup_alter_eq, HP.
  - done.
  - done.
  - cbn [sort_by snd push_comment post_comments].
    rewrite !merge_sort_Permutation.
    assert (Hst : stored_comments s' (post_comments p ++ [next_oid s])
                  = (stored_comments s (post_comments p)
                     ++ [(next_oid s, new_comment now req)])%list).
    { unfold stored_comments at 1. rewrite omap_app. f_equal.
      - apply stored_comments_agree. intros i Hi. apply Hagree.
        unfold ids_below in Hbelow. rewrite Forall_forall in Hbelow.
        by apply Hbelow.
      - simpl. by rewrite Hnew. }
    rewrite Hst, fmap_app.
    rewrite (list_fmap_ext (expand s' 2) (expand s 2)).
    + rewrite (comm (++)). simpl. f_equiv. subst a.
      unfold stored_comments. simpl. f_equal.
      unfold resolve_author. by rewrite Hs'.
    + intros k [i c] Hk. apply (expand_agree s); try done.
      * by rewrite Hs'.
      * by rewrite Hs'.
      * cbn [snd].
        apply list_elem_of_lookup_2, elem_of_stored_comments in Hk as [_ Hk].
        destruct Hwf as [_ Hc]. by apply Hc in Hk as [_ Hk].
Qed.

Lemma top_level_comment_listed_witness :
  store_wf sample_store ∧
  Posts sample_store !! 0 = Some (mkPost "hello" 100 "User" [1] 10) ∧
  "second" ≠ "" ∧
  ∃ v c v' c',
    v ∈ response_posts (value (getAllPosts sample_store)) ∧
    pv_id v = 0 ∧ pv_comments v = Docs c ∧
    v' ∈ response_posts (value (getAllPosts
           (store_after (createComment 12 top_level_request sample_store)))) ∧
    pv_id v' = 0 ∧ pv_comments v' = Docs c' ∧
    c' ≡ₚ mkCommentView 2 (mkComment "second" 100 "User" 0 None [] 12)
            (AuthorDoc (Some (mkAuthor 100 "ann" None))) (Docs [])
          :: c.
Proof.
  split_and!.
  - apply (bool_decide_unpack _). vm_compute. exact I.
  - reflexivity.
  - discriminate.
  - apply (top_level_comment_listed 12 0 (mkPost "hello" 100 "User" [1] 10)
             "second" 100 "user" sample_store).
    + apply (bool_decide_unpack _). vm_compute. exact I.
    + reflexivity.
    + discriminate.
Defined.

(** ** The two controllers do not interfere *)

Section listing_ext.
Variables s s' : Store.
Hypothesis Hposts : Posts s' = Posts s.
Hypothesis Hcomments : Comments s' = Comments s.
Hypothesis Hauthors :
  ∀ t i, resolve_author s' t i = resolve_author s t i.

Lemma stored_comments_ext ids : stored_comments s' ids = stored_comments s ids.
Proof. unfold stored_comments. by rewrite Hcomments. Qed.

Lemma expand_ext n ic : expand s' n ic = expand s n ic.
Proof.
  revert ic. induction n as [|n IH]; intros [i c]; simpl.
  - by rewrite Hauthors.
  - rewrite Hauthors, stored_comments_ext. do 2 f_equal.
    apply list_fmap_ext. intros k ic _. apply IH.
Qed.

Lemma listing_ext n : listing s' n = listing s n.
Proof.
  unfold listing. rewrite Hposts. apply list_fmap_ext. intros k [i p] _.
  unfold hydrate_post. rewrite Hauthors, stored_comments_ext.
  do 2 f_equal. apply list_fmap_ext. intros j ic _. apply expand_ext.
Qed.
End listing_ext.

Lemma setAvailability_authors req s t i :
  resolve_author (store_after (setAvailability req s)) t i
  = resolve_author s t i.
Proof.
  destruct (Doctors s !! req_doctorId req) as [doc|] eqn:Hdoc.
  - rewrite (setAvailability_found _ _ _ Hdoc). unfold resolve_author.
    simpl. rewrite lookup_insert.
    repeat case_decide; try done. subst i. by rewrite Hdoc.
  - by rewrite (setAvailability_missing _ _ Hdoc).
Qed.

Lemma setAvailability_forum req s :
  let s' := store_after (setAvailability req s) in
  Posts s' = Posts s ∧ Comments s' = Comments s.
Proof.
  destruct (Doctors s !! req_doctorId req) as [doc|] eqn:Hdoc.
  - by rewrite (setAvailability_found _ _ _ Hdoc).
  - by rewrite (setAvailability_missing _ _ Hdoc).
Qed.

Lemma markAppointmentCompleted_forum req s :
  let s' := store_after (markAppointmentCompleted req s) in
  Posts s' = Posts s ∧ Comments s' = Comments s ∧ Users s' = Users s ∧
  Doctors s' = Doctors s.
Proof.
  unfold markAppointmentCompleted.
  cbv beta iota zeta delta [Appointment_findOne Appointment_save read write
    mbind M_bind mret M_ret value store_after journal].
  destruct (Appointments s !! params_appointmentId req) as [a|]; simpl;
    [|done].
  case_decide; [|done]. by case_decide.
Qed.

Lemma updateAppointmentStatus_forum req s :
  let s' := store_after (updateAppointmentStatus req s) in
  Posts s' = Posts s ∧ Comments s' = Comments s ∧ Users s' = Users s ∧
  Doctors s' = Doctors s.
Proof.
  unfold updateAppointmentStatus, Appointment_findOneAndUpdate_status.
  cbv beta iota zeta delta [Appointment_findOne Appointment_save read write
    mbind M_bind mret M_ret value store_after journal].
  destruct (Appointments s !! status_params_id req) as [a|]; simpl; [|done].
  by case_decide.
Qed.

(** X15: the two controllers do not interfere: a forum operation leaves
    the users, the doctors and the appointments as they were, and the
    writing doctor handlers, [setAvailability], [updateAppointmentStatus]
    and [markAppointmentCompleted], leave the answer of [getAllPosts] as it
    was, the doctors' names and specializations shown included. *)
Theorem controllers_do_not_interfere s :
  (∀ op, Users (store_after (run op s)) = Users s ∧
         Doctors (store_after (run op s)) = Doctors s ∧
         Appointments (store_after (run op s)) = Appointments s) ∧
  (∀ req, value (getAllPosts (store_after (setAvailability req s)))
          = value (getAllPosts s)) ∧
  (∀ req, value (getAllPosts (store_after (updateAppointmentStatus req s)))
          = value (getAllPosts s)) ∧
  (∀ req, value (getAllPosts (store_after (markAppointmentCompleted req s)))
          = value (getAllPosts s)).
Proof.
  split_and!.
  - intros [|now req|now req]; simpl; [done| |].
    + destruct (falsy (body_content req)) eqn:Hc.
      * by rewrite createPost_rejects.
      * by rewrite createPost_store.
    + destruct (falsy (body_content req)) eqn:Hc.
      * by rewrite createComment_rejects.
      * rewrite createComment_store by done.
        by destruct (body_parentCommentId req).
  - intros req. rewrite !getAllPosts_listing. cbn [value]. do 2 f_equal.
    pose proof (setAvailability_forum req s) as (Hp & Hc).
    apply listing_ext; [done|done|]. apply setAvailability_authors.
  - intros req. rewrite !getAllPosts_listing. cbn [value]. do 2 f_equal.
    pose proof (updateAppointmentStatus_forum req s) as (Hp & Hc & Hu & Hd).
    apply listing_ext; [done|done|]. intros t i. unfold resolve_author.
    by rewrite Hu, Hd.
  - intros req. rewrite !getAllPosts_listing. cbn [value]. do 2 f_equal.
    pose proof (markAppointmentCompleted_forum req s) as (Hp & Hc & Hu & Hd).
    apply listing_ext; [done|done|]. intros t i. unfold resolve_author.
    by rewrite Hu, Hd.
Qed.

(** ** The tree the forum operations build *)

Lemma push_reply_fields new c :
  comment_post (push_reply new c) = comment_post c ∧
  comment_parentComment (push_reply new c) = comment_parentComment c.
Proof. done. Qed.

Lemma createComment_lookup_old now req s i c' :
  falsy (body_content req) = false →
  i ≠ next_oid s →
  Comments (store_after (createComment now req s)) !! i = Some c' →
  ∃ c, Comments s !! i = Some c ∧
       comment_post c' = comment_post c ∧
       comment_parentComment c' = comment_parentComment c ∧
       (comment_replies c' = comment_replies c ∨
        body_parentCommentId req = Some i ∧
        comment_replies c' = (comment_replies c ++ [next_oid s])%list).
Proof.
  intros Hc Hi. rewrite createComment_store by done.
  destruct (body_parentCommentId req) as [parent|]; simpl.
  - rewrite lookup_alter. case_decide as E.
    + subst i. rewrite lookup_insert_ne by done.
      destruct (Comments s !! parent) as [c|]; simpl; [|done].
      intros [= <-]. exists c. split_and!; auto.
    + rewrite lookup_insert_ne by done. intros H. exists c'. auto.
  - rewrite lookup_insert_ne by done. intros H. exists c'. auto.
Qed.

Lemma createComment_lookup_new now req s c' :
  falsy (body_content req) = false →
  Comments (store_after (createComment now req s)) !! next_oid s = Some c' →
  comment_post c' = params_postId req ∧
  comment_parentComment c' = body_parentCommentId req ∧
  (comment_replies c' = [] ∨
   body_parentCommentId req = Some (next_oid s) ∧
   comment_replies c' = [next_oid s]).
Proof.
  intros Hc. rewrite createComment_store by done.
  destruct (body_parentCommentId req) as [parent|] eqn:Hpar; simpl.
  - rewrite lookup_alter. case_decide as E.
    + subst parent. rewrite lookup_insert_eq. simpl. intros [= <-].
      unfold new_comment. simpl. rewrite Hpar. auto.
    + rewrite lookup_insert_eq. intros [= <-].
      unfold new_comment. simpl. rewrite Hpar. auto.
  - rewrite lookup_insert_eq. intros [= <-].
    unfold new_comment. simpl. rewrite Hpar. auto.
Qed.

Lemma createComment_lookup_post now req s j p' :
  falsy (body_content req) = false →
  Posts (store_after (createComment now req s)) !! j = Some p' →
  ∃ p, Posts s !! j = Some p ∧
       (post_comments p' = post_comments p ∨
        body_parentCommentId req = None ∧ params_postId req = j ∧
        post_comments p' = (post_comments p ++ [next_oid s])%list).
Proof.
  intros Hc. rewrite createComment_store by done.
  destruct (body_parentCommentId req) as [parent|]; simpl.
  - intros H. exists p'. auto.
  - rewrite lookup_alter. case_decide as E.
    + subst j. destruct (Posts s !! params_postId req) as [p|]; simpl; [|done].
      intros [= <-]. exists p. auto.
    + intros H. exists p'. auto.
Qed.

Lemma run_preserves_consistency op s :
  store_wf s → linkage_consistent s →
  linkage_consistent (store_after (run op s)).
Proof.
  intros Hwf [Hposts Hreplies].
  destruct op as [|now req|now req]; simpl; [done| |].
  - destruct (falsy (body_content req)) eqn:Hc.
    { by rewrite createPost_rejects. }
    rewrite createPost_store by done. split; simpl.
    + intros j p i c. rewrite lookup_insert. case_decide as E.
      * intros [= <-]. simpl. by intros ?%not_elem_of_nil.
      * apply Hposts.
    + apply Hreplies.
  - destruct (falsy (body_content req)) eqn:Hc.
    { by rewrite createComment_rejects. }
    split.
    + intros j p' i c' Hj Hi Hlook.
      destruct (createComment_lookup_post _ _ _ _ _ Hc Hj)
        as (p & Hp & [Heq|(Hpar & Hpost & Heq)]); rewrite Heq in Hi.
      * assert (i ≠ next_oid s) as Hne.
        { pose proof (store_wf_post_comments _ _ _ _ Hwf Hp Hi). lia. }
        destruct (createComment_lookup_old _ _ _ _ _ Hc Hne Hlook)
          as (c & Hlc & -> & -> & _). by eapply Hposts.
      * apply elem_of_app in Hi as [Hi|Hi%list_elem_of_singleton].
        -- assert (i ≠ next_oid s) as Hne.
           { pose proof (store_wf_post_comments _ _ _ _ Hwf Hp Hi). lia. }
           destruct (createComment_lookup_old _ _ _ _ _ Hc Hne Hlook)
             as (c & Hlc & -> & -> & _). by eapply Hposts.
        -- subst i.
           destruct (createComment_lookup_new _ _ _ _ Hc Hlook)
             as (-> & -> & _). done.
    + intros j c1 i c' Hj Hi Hlook.
      destruct (decide (j = next_oid s)) as [->|Hjne].
      * destruct (createComment_lookup_new _ _ _ _ Hc Hj)
          as (_ & _ & [Heq|[Hpar Heq]]); rewrite Heq in Hi.
        -- by apply not_elem_of_nil in Hi.
        -- apply list_elem_of_singleton in Hi. subst i.
           destruct (createComment_lookup_new _ _ _ _ Hc Hlook)
             as (_ & -> & _). done.
      * destruct (createComment_lookup_old _ _ _ _ _ Hc Hjne Hj)
          as (c0 & Hc0 & _ & _ & [Heq|[Hpar Heq]]); rewrite Heq in Hi.
        -- assert (i ≠ next_oid s) as Hne.
           { pose proof (store_wf_comment_replies _ _ _ _ Hwf Hc0 Hi). lia. }
           destruct (createComment_lookup_old _ _ _ _ _ Hc Hne Hlook)
             as (c & Hlc & _ & -> & _). by eapply Hreplies.
        -- apply elem_of_app in Hi as [Hi|Hi%list_elem_of_singleton].
           ++ assert (i ≠ next_oid s) as Hne.
              { pose proof (store_wf_comment_replies _ _ _ _ Hwf Hc0 Hi).
                lia. }
              destruct (createComment_lookup_old _ _ _ _ _ Hc Hne Hlook)
                as (c & Hlc & _ & -> & _). by eapply Hreplies.
           ++ subst i.
              destruct (createComment_lookup_new _ _ _ _ Hc Hlook)
                as (_ & -> & _). done.
Qed.

Lemma run_preserves_links_once op s :
  store_wf s → links_once s → links_once (store_after (run op s)).
Proof.
  intros Hwf [Hposts Hreplies].
  destruct op as [|now req|now req]; simpl; [done| |].
  - destruct (falsy (body_content req)) eqn:Hc.
    { by rewrite createPost_rejects. }
    rewrite createPost_store by done. split; simpl; [|done].
    apply map_Forall_insert_2; [apply NoDup_nil_2|done].
  - destruct (falsy (body_content req)) eqn:Hc.
    { by rewrite createComment_rejects. }
    split.
    + intros j p' Hj.
      destruct (createComment_lookup_post _ _ _ _ _ Hc Hj)
        as (p & Hp & [Heq|(_ & _ & Heq)]); rewrite Heq.
      * by eapply Hposts.
      * apply NoDup_app. split_and!; [by eapply Hposts| |apply NoDup_singleton].
        intros i Hi ->%list_elem_of_singleton.
        pose proof (store_wf_post_comments _ _ _ _ Hwf Hp Hi). lia.
    + intros j c' Hj. destruct (decide (j = next_oid s)) as [->|Hjne].
      * destruct (createComment_lookup_new _ _ _ _ Hc Hj)
          as (_ & _ & [Heq|[_ Heq]]); rewrite Heq.
        -- apply NoDup_nil_2.
        -- apply NoDup_singleton.
      * destruct (createComment_lookup_old _ _ _ _ _ Hc Hjne Hj)
          as (c0 & Hc0 & _ & _ & [Heq|[_ Heq]]); rewrite Heq.
        -- by eapply Hreplies.
        -- apply NoDup_app.
           split_and!; [by eapply Hreplies| |apply NoDup_singleton].
           intros i Hi ->%list_elem_of_singleton.
           pose proof (store_wf_comment_replies _ _ _ _ Hwf Hc0 Hi). lia.
Qed.

(** X16: the forum operations keep the stored tree well formed: from a
    store in which no id is reused, the child lists agree with the parent
    pointers and no list names an id twice, every sequence of forum
    operations leads to such a store; there a stored comment is named by at
    most one linkage array, the [comments] of the post it names when it has
    no parent, the [replies] of its parent otherwise. *)
Theorem forum_tree_invariant ops s :
  store_wf s → linkage_consistent s → links_once s →
  let s' := run_all ops s in
  store_wf s' ∧ linkage_consistent s' ∧ links_once s' ∧
  ∀ i c, Comments s' !! i = Some c →
    (∀ j p, Posts s' !! j = Some p → i ∈ post_comments p →
       comment_parentComment c = None ∧ j = comment_post c) ∧
    (∀ j c', Comments s' !! j = Some c' → i ∈ comment_replies c' →
       comment_parentComment c = Some j).
Proof.
  revert s. induction ops as [|op ops IH]; intros s Hwf Hcons Honce; simpl.
  - split_and!; try done. intros i c Hi. destruct Hcons as [Hp Hr]. split.
    + intros j p Hj Hin. by destruct (Hp j p i c).
    + intros j c' Hj Hin. by apply (Hr j c' i c).
  - apply IH.
    + by apply run_preserves_wf.
    + by apply run_preserves_consistency.
    + by apply run_preserves_links_once.
Qed.

Lemma forum_tree_invariant_witness :
  store_wf sample_store ∧ linkage_consistent sample_store ∧
  links_once sample_store ∧
  links_once
    (run_all [CreateComment 12 reply_request; CreatePost 13 post_request;
              CreateComment 14 top_level_request; ListPosts]
       sample_store).
Proof.
  assert (Hcons : linkage_consistent sample_store).
  { split.
    - intros j p i c Hj Hi Hc.
      destruct (decide (j = 0)) as [->|Hj0].
      + vm_compute in Hj. injection Hj as <-.
        apply list_elem_of_singleton in Hi. subst i.
        vm_compute in Hc. by injection Hc as <-.
      + unfold sample_store in Hj. simpl in Hj.
        by rewrite lookup_singleton_ne in Hj.
    - intros j c i c' Hj Hi Hc.
      destruct (decide (j = 1)) as [->|Hj1].
      + vm_compute in Hj. injection Hj as <-. by apply not_elem_of_nil in Hi.
      + unfold sample_store in Hj. simpl in Hj.
        by rewrite lookup_singleton_ne in Hj. }
  split_and!.
  - apply (bool_decide_unpack _). vm_compute. exact I.
  - exact Hcons.
  - apply (bool_decide_unpack _). vm_compute. exact I.
  - apply (forum_tree_invariant
             [CreateComment 12 reply_request; CreatePost 13 post_request;
              CreateComment 14 top_level_request; ListPosts] sample_store).
    + apply (bool_decide_unpack _). vm_compute. exact I.
    + exact Hcons.
    + apply (bool_decide_unpack _). vm_compute. exact I.
Defined.

(** X17: a thread is listed three comments deep, in any store: after a
    top-level comment A on a stored post, a reply B to A, a reply C to B
    and a reply D to C, the listing shows the post with A among its
    comments, B as the only reply of A and C as the only reply of B, each
    expanded, and D, which is stored, as a bare id in the [replies] of C. *)
Theorem thread_listed_three_deep s P p now tA tB tC tD uid role :
  store_wf s →
  Posts s !! P = Some p →
  tA ≠ "" → tB ≠ "" → tC ≠ "" → tD ≠ "" →
  let A := next_oid s in
  let B := A + 1 in
  let C := A + 2 in
  let D := A + 3 in
  let sA := store_after
    (createComment now (mkForumRequest P (Some tA) None uid role) s) in
  let sB := store_after
    (createComment now (mkForumRequest P (Some tB) (Some A) uid role) sA) in
  let sC := store_after
    (createComment now (mkForumRequest P (Some tC) (Some B) uid role) sB) in
  let sD := store_after
    (createComment now (mkForumRequest P (Some tD) (Some C) uid role) sC) in
  ∃ v c a b d,
    v ∈ response_posts (value (getAllPosts sD)) ∧
    pv_id v = P ∧ pv_comments v = Docs c ∧
    a ∈ c ∧ cv_id a = A ∧ comment_content (cv_doc a) = tA ∧
    cv_replies a = Docs [b] ∧
    cv_id b = B ∧ comment_content (cv_doc b) = tB ∧
    cv_replies b = Docs [d] ∧
    cv_id d = C ∧ comment_content (cv_doc d) = tC ∧
    cv_replies d = Refs [D] ∧
    comment_content <$> Comments sD !! D = Some tD.
Proof.
  intros Hwf HP HtA HtB HtC HtD A B C D sA sB sC sD.
  set (reqA := mkForumRequest P (Some tA) None uid role) in *.
  set (reqB := mkForumRequest P (Some tB) (Some A) uid role) in *.
  set (reqC := mkForumRequest P (Some tC) (Some B) uid role) in *.
  set (reqD := mkForumRequest P (Some tD) (Some C) uid role) in *.
  assert (HfA : falsy (body_content reqA) = false) by by destruct tA.
  assert (HfB : falsy (body_content reqB) = false) by by destruct tB.
  assert (HfC : falsy (body_content reqC) = false) by by destruct tC.
  assert (HfD : falsy (body_content reqD) = false) by by destruct tD.
  assert (HsA : sA = set_Posts (alter (push_comment A) P)
                  (bump_oid (set_Comments (insert A (new_comment now reqA)) s))).
  { subst sA. by rewrite createComment_store. }
  assert (HnA : next_oid sA = B) by (by rewrite HsA).
  assert (HsB : sB = set_Comments (alter (push_reply B) A)
                  (bump_oid (set_Comments (insert B (new_comment now reqB)) sA))).
  { subst sB. rewrite createComment_store by done. by rewrite HnA. }
  assert (HnB : next_oid sB = C).
  { rewrite HsB. simpl. rewrite HnA. unfold B, C. lia. }
  assert (HsC : sC = set_Comments (alter (push_reply C) B)
                  (bump_oid (set_Comments (insert C (new_comment now reqC)) sB))).
  { subst sC. rewrite createComment_store by done. by rewrite HnB. }
  assert (HnC : next_oid sC = D).
  { rewrite HsC. simpl. rewrite HnB. unfold C, D. lia. }
  assert (HsD : sD = set_Comments (alter (push_reply D) C)
                  (bump_oid (set_Comments (insert D (new_comment now reqD)) sC))).
  { subst sD. rewrite createComment_store by done. by rewrite HnC. }
  assert (HAB : A ≠ B) by (unfold B; lia).
  assert (HAC : A ≠ C) by (unfold C; lia).
  assert (HAD : A ≠ D) by (unfold D; lia).
  assert (HBC : B ≠ C) by (unfold B, C; lia).
  assert (HBD : B ≠ D) by (unfold B, D; lia).
  assert (HCD : C ≠ D) by (unfold C, D; lia).
  assert (HlookP : Posts sD !! P = Some (push_comment A p)).
  { rewrite HsD, HsC, HsB, HsA. simpl. by rewrite lookup_alter_eq, HP. }
  assert (HlookA : Comments sD !! A
                   = Some (push_reply B (new_comment now reqA))).
  { rewrite HsD, HsC, HsB, HsA. simpl.
    rewrite lookup_alter_ne, lookup_insert_ne by done.
    rewrite lookup_alter_ne, lookup_insert_ne by done.
    rewrite lookup_alter_eq, lookup_insert_ne, lookup_insert_eq by done.
    done. }
  assert (HlookB : Comments sD !! B
                   = Some (push_reply C (new_comment now reqB))).
  { rewrite HsD, HsC, HsB. simpl.
    rewrite lookup_alter_ne, lookup_insert_ne by done.
    rewrite lookup_alter_eq, lookup_insert_ne by done.
    rewrite lookup_alter_ne, lookup_insert_eq by done. done. }
  assert (HlookC : Comments sD !! C
                   = Some (push_reply D (new_comment now reqC))).
  { rewrite HsD, HsC. simpl.
    rewrite lookup_alter_eq, lookup_insert_ne by done.
    rewrite lookup_alter_ne, lookup_insert_eq by done. done. }
  assert (HlookD : Comments sD !! D = Some (new_comment now reqD)).
  { rewrite HsD. simpl.
    rewrite lookup_alter_ne, lookup_insert_eq by done. done. }
  clearbody sD.
  rewrite getAllPosts_listing. unfold response_posts, listing.
  cbn [value body].
  exists (hydrate_post sD 2 (P, push_comment A p)). eexists.
  exists (expand sD 2 (A, push_reply B (new_comment now reqA))).
  exists (expand sD 1 (B, push_reply C (new_comment now reqB))).
  exists (expand sD 0 (C, push_reply D (new_comment now reqC))).
  split_and!.
  - apply list_elem_of_fmap_2, elem_of_sort_by.
    by apply elem_of_map_to_list.
  - done.
  - done.
  - apply list_elem_of_fmap_2, elem_of_sort_by.
    apply elem_of_stored_comments. split; [|done]. simpl.
    apply elem_of_app. right. by apply list_elem_of_singleton.
  - done.
  - done.
  - cbn [expand cv_replies snd push_reply comment_replies new_comment app].
    unfold stored_comments. cbn [omap list_omap]. rewrite HlookB. done.
  - done.
  - done.
  - cbn [expand cv_replies snd push_reply comment_replies new_comment app].
    unfold stored_comments. cbn [omap list_omap]. rewrite HlookC. done.
  - done.
  - done.
  - done.
  - by rewrite HlookD.
Qed.

Lemma thread_listed_three_deep_witness :
  store_wf sample_store ∧
  Posts sample_store !! 0 = Some (mkPost "hello" 100 "User" [1] 10) ∧
  "A" ≠ "" ∧ "B" ≠ "" ∧ "C" ≠ "" ∧ "D" ≠ "" ∧
  ∃ v c a b d,
    v ∈ response_posts (value (getAllPosts
      (store_after (createComment 20
         (mkForumRequest 0 (Some "D") (Some 4) 100 "user")
      (store_after (createComment 20
         (mkForumRequest 0 (Some "C") (Some 3) 100 "user")
      (store_after (createComment 20
         (mkForumRequest 0 (Some "B") (Some 2) 100 "user")
      (store_after (createComment 20
         (mkForumRequest 0 (Some "A") None 100 "user")
         sample_store)))))))))) ∧
    pv_id v = 0 ∧ pv_comments v = Docs c ∧
    a ∈ c ∧ cv_id a = 2 ∧ comment_content (cv_doc a) = "A" ∧
    cv_replies a = Docs [b] ∧
    cv_id b = 3 ∧ comment_content (cv_doc b) = "B" ∧
    cv_replies b = Docs [d] ∧
    cv_id d = 4 ∧ comment_content (cv_doc d) = "C" ∧
    cv_replies d = Refs [5].
Proof.
  split_and!.
  - apply (bool_decide_unpack _). vm_compute. exact I.
  - reflexivity.
  - discriminate.
  - discriminate.
  - discriminate.
  - discriminate.
  - destruct (thread_listed_three_deep sample_store 0
                (mkPost "hello" 100 "User" [1] 10) 20 "A" "B" "C" "D"
                100 "user")
      as (v & c & a & b & d & H1 & H2 & H3 & H4 & H5 & H6 & H7 & H8 & H9
          & H10 & H11 & H12 & H13 & _).
    + apply (bool_decide_unpack _). vm_compute. exact I.
    + reflexivity.
    + discriminate.
    + discriminate.
    + discriminate.
    + discriminate.
    + exists v, c, a, b, d. split_and!; assumption.
Defined.

(** ** Sample runs of the doctor handlers *)

Lemma setAvailability_first_entry_only_witness :
  Doctors duplicate_dates_store !! req_doctorId availability_request
  = Some (mkDoctor "bob" "cardiology"
            [ mkAvailability "2025-01-02" ["08:00"];
              mkAvailability "2025-01-01" ["09:00"];
              mkAvailability "2025-01-01" ["12:00"] ]) ∧
  ∃ l',
    availableSlots <$>
      Doctors (store_after (setAvailability availability_request
                              duplicate_dates_store)) !! 200 = Some l' ∧
    l' = [ mkAvailability "2025-01-02" ["08:00"];
           mkAvailability "2025-01-01" ["10:00"; "11:00"];
           mkAvailability "2025-01-01" ["12:00"] ].
Proof.
  split; [reflexivity|].
  destruct (setAvailability_first_entry_only availability_request
              duplicate_dates_store
              (mkDoctor "bob" "cardiology"
                 [ mkAvailability "2025-01-02" ["08:00"];
                   mkAvailability "2025-01-01" ["09:00"];
                   mkAvailability "2025-01-01" ["12:00"] ]) eq_refl)
    as (l' & Hl' & _ & Hfirst & _).
  exists l'. split; [exact Hl'|].
  apply (Hfirst 1%nat (mkAvailability "2025-01-01" ["09:00"]) eq_refl eq_refl).
  intros [|j] y Hj Hlt.
  - injection Hj as <-. discriminate.
  - lia.
Defined.

Lemma appointment_status_composition_witness :
  Appointments sample_store !! params_appointmentId completion_request
  = Some (mkAppointment 200 100 "2025-01-01" "09:00" "pending") ∧
  status (value (markAppointmentCompleted completion_request
            (store_after
               (updateAppointmentStatus (mkStatusRequest 200 7 "pending")
                  (store_after
                     (markAppointmentCompleted completion_request
                        sample_store)))))) = 200.
Proof.
  split; [reflexivity|].
  apply (appointment_status_composition completion_request "pending"
           sample_store
           (mkAppointment 200 100 "2025-01-01" "09:00" "pending")).
  - reflexivity.
  - reflexivity.
  - discriminate.
Defined.

Lemma verifyDoctorToken_bearer_witness :
  startsWith "Basic good" "Bearer " = false ∧
  lacks " " "good" = true ∧
  verifyDoctorToken sample_jwt_verify (Some "Basic good")
  = inl (mkResponse 401 (json_message "No token provided")) ∧
  verifyDoctorToken sample_jwt_verify (Some "Bearer good and more") = inr 200.
Proof.
  split_and!.
  - reflexivity.
  - reflexivity.
  - apply (verifyDoctorToken_bearer sample_jwt_verify). reflexivity.
  - destruct (verifyDoctorToken_bearer sample_jwt_verify) as (_ & _ & H).
    destruct (H "good" "and more" eq_refl) as [H1 H2].
    exact (eq_trans H2 H1).
Defined.
